(** * Differential evolution (src/de.py): a shallow embedding and its properties

    The optimiser of [de.py] (classes [DiffEvol] and [DiffEvolResult]) is
    written here as Rocq functions.  The process-wide numpy generator, the
    result object the engine mutates and the console are explicit state;
    exceptions and running [while] loops are outcomes of a small monad. *)

From Stdlib Require Import ZArith QArith Lia Lqa Floats.
From stdpp Require Import base list.

Close Scope Q_scope.
Open Scope nat_scope.

(** ** Numbers

    The arrays of [de.py] hold float64 values.  The algorithm only adds,
    subtracts, multiplies and compares them, so the embedding is written
    over these operations; [float64] is the instance the code runs on and
    [exactQ] is the same arithmetic without rounding. *)

Class Arith (T : Type) := {
  fadd : T -> T -> T;
  fsub : T -> T -> T;
  fmul : T -> T -> T;
  fltb : T -> T -> bool;
  fleb : T -> T -> bool;
  fzero : T
}.

#[export] Instance float64 : Arith float := {|
  fadd := PrimFloat.add;
  fsub := PrimFloat.sub;
  fmul := PrimFloat.mul;
  fltb := PrimFloat.ltb;
  fleb := PrimFloat.leb;
  fzero := 0%float
|}.

#[export] Instance exactQ : Arith Q := {|
  fadd := Qplus;
  fsub := Qminus;
  fmul := Qmult;
  fltb := fun x y => negb (Qle_bool y x);
  fleb := Qle_bool;
  fzero := 0%Q
|}.

(** ** The numpy generator

    [np.random] is one process-wide Mersenne Twister.  The embedding takes it
    as an interface: [seed_state] is [np.random.seed], [random_sample] one
    draw of [random()], and [rk_interval m] the bounded integer draw behind
    [randint], which numpy specifies to lie in [0, m] inclusive. *)

Class RandomState (T : Type) := {
  rstate : Type;
  seed_state : Z -> rstate;
  random_sample : rstate -> T * rstate;
  rk_interval : nat -> rstate -> nat * rstate;
  rk_interval_le : forall m g, (rk_interval m g).1 <= m
}.

(** ** Outcomes and the state monad

    [Raise] is a Python exception.  The last four names are the error classes
    of the specification; no line of [de.py] raises them.  [Timeout] stands
    for a [while] loop that is still running when its iteration budget ends.
    The state is returned with every outcome: what a Python statement wrote
    before an exception stays written. *)

Inductive exn :=
  | ValueError | IndexError | AttributeError
  | InvalidBoundsError | InvalidSizeError | InvalidParameterError
  | NotEvaluatedError.

Inductive outcome (A : Type) :=
  | Ret (a : A)
  | Raise (e : exn)
  | Timeout.
Arguments Ret {A} a.
Arguments Raise {A} e.
Arguments Timeout {A}.

Definition prog (S A : Type) : Type := S -> outcome A * S.

Definition ret {S A} (a : A) : prog S A := fun s => (Ret a, s).
Definition raise {S A} (e : exn) : prog S A := fun s => (Raise e, s).
Definition bind {S A B} (m : prog S A) (k : A -> prog S B) : prog S B :=
  fun s => match m s with
           | (Ret a, s') => k a s'
           | (Raise e, s') => (Raise e, s')
           | (Timeout, s') => (Timeout, s')
           end.
Definition gets {S A} (f : S -> A) : prog S A := fun s => (Ret (f s), s).
Definition modify {S} (f : S -> S) : prog S unit := fun s => (Ret tt, f s).

#[export] Instance prog_ret {S} : MRet (prog S) := fun A a => ret a.
#[export] Instance prog_bind {S} : MBind (prog S) := fun A B k m => bind m k.

(** [for x in xs: body x] *)
Fixpoint for_in {S A} (xs : list A) (body : A -> prog S unit) : prog S unit :=
  match xs with
  | [] => ret tt
  | x :: rest => body x ;; for_in rest body
  end.

(** [xrange(n)]: empty when [n <= 0]. *)
Definition xrange (n : Z) : list nat := seq 0 (Z.to_nat n).

(** [l[i]]: out of range is [IndexError]. *)
Definition index {S A} (l : list A) (i : nat) : prog S A :=
  match l !! i with
  | Some x => ret x
  | None => raise IndexError
  end.

(** ** The data model and the two classes *)

Section Model.
Context {T : Type} {AT : Arith T} {RS : RandomState T}.

(** A 1-d array is a list, an array of shape (n_pop, n_parm) the list of its
    rows.  numpy arrays are rectangular, so the rows of one matrix have one
    length; the element-wise operations below are used on equal shapes only. *)
Definition vadd (x y : list T) : list T := zip_with fadd x y.
Definition vsub (x y : list T) : list T := zip_with fsub x y.
Definition vscale (c : T) (x : list T) : list T := fmul c <$> x.
Definition madd (a b : list (list T)) : list (list T) := zip_with vadd a b.
Definition mmul (a b : list (list T)) : list (list T) :=
  zip_with (zip_with fmul) a b.

(** [np.where(c, x, y)] *)
Definition np_where (c : list bool) (x y : list T) : list T :=
  zip_with (fun (b : bool) (p : T * T) => if b then p.1 else p.2) c (zip x y).

(** [tile(row, [npop, 1])] *)
Definition tile (row : list T) (npop : nat) : list (list T) :=
  replicate npop row.

(** One draw of [random()]. *)
Definition random1 : prog rstate T :=
  fun g => let (x, g') := random_sample g in (Ret x, g').

(** [random(n)] fills its array front to back from the stream. *)
Fixpoint random (n : nat) : prog rstate (list T) :=
  match n with
  | 0 => mret []
  | S k => x ← random1; xs ← random k; mret (x :: xs)
  end.

(** [random([m, n])] fills in C order, row after row. *)
Fixpoint random2 (m n : nat) : prog rstate (list (list T)) :=
  match m with
  | 0 => mret []
  | S k => row ← random n; rows ← random2 k n; mret (row :: rows)
  end.

(** [randint(n)]: an integer of [0, n); [ValueError] when the range is
    empty. *)
Definition randint (n : Z) : prog rstate nat :=
  if (n <=? 0)%Z then raise ValueError
  else fun g => let (k, g') := rk_interval (Z.to_nat n - 1) g in (Ret k, g').

(** [np.random.seed(s)] takes a seed of [0, 2**32). *)
Definition np_random_seed (s : Z) : prog rstate unit :=
  if ((0 <=? s) && (s <? 2 ^ 32))%Z
  then modify (fun _ => seed_state s)
  else raise ValueError.

(** *** DiffEvolResult

    [pop] and [fit] are second names of the arrays [population] and
    [fitness]: the constructor binds both names to one object, so a write
    through one is read through the other. *)
Record DiffEvolResult := {
  population : list (list T);
  fitness : list T;
  minidx : option nat
}.
Definition pop (r : DiffEvolResult) : list (list T) := population r.
Definition fit (r : DiffEvolResult) : list T := fitness r.

(** [DiffEvolResult.__init__] *)
Definition DiffEvolResult_init (npop npar : nat) (bl bw : list (list T))
  : prog rstate DiffEvolResult :=
  u ← random2 npop npar;
  mret {| population := madd bl (mmul u bw);
          fitness := replicate npop fzero;
          minidx := None |}.

(** What an indexing expression evaluates to: a number or an array of one,
    two or three axes. *)
Inductive ndarray :=
  | Scalar (x : T)
  | Array1 (v : list T)
  | Array2 (m : list (list T))
  | Array3 (c : list (list (list T))).

(** [self.fitness[self.minidx]].  An index [None] is numpy's [newaxis]: the
    whole array comes back under one more leading axis. *)
Definition get_fitness (r : DiffEvolResult) : outcome ndarray :=
  match minidx r with
  | None => Ret (Array2 [fitness r])
  | Some k => match fitness r !! k with
              | Some x => Ret (Scalar x)
              | None => Raise IndexError
              end
  end.

(** [self.population[self.minidx,:]] *)
Definition get_best_fit (r : DiffEvolResult) : outcome ndarray :=
  match minidx r with
  | None => Ret (Array3 [population r])
  | Some k => match population r !! k with
              | Some row => Ret (Array1 row)
              | None => Raise IndexError
              end
  end.

(** *** DiffEvol

    The fields are the attributes [__init__] assigns, and [rank], which
    [__call__] reads and no method assigns: [None] is the attribute being
    absent. *)
Record DiffEvol := {
  minfun : list T -> T;
  bounds : list (T * T);
  n_gen : Z;
  n_pop : Z;
  n_parm : nat;
  bl : list (list T);
  bw : list (list T);
  seed : Z;
  F : T;
  C : T;
  verbose : bool;
  rank : option Z;
  result : DiffEvolResult
}.

(** [DiffEvol.__init__].  [bnds] is the array of shape (n_parm, 2).  The
    constructor has no check of its own; what can fail are the numpy calls:
    [tile] with a negative repetition count and [np.random.seed]. *)
Definition DiffEvol_init (fn : list T -> T) (bnds : list (T * T))
    (npop ngen : Z) (f c : T) (sd : Z) (verb : bool) : prog rstate DiffEvol :=
  if (npop <? 0)%Z then raise ValueError
  else
    let npar := length bnds in
    let lo := tile (fst <$> bnds) (Z.to_nat npop) in
    let wd := tile ((fun p => fsub p.2 p.1) <$> bnds) (Z.to_nat npop) in
    np_random_seed sd;;
    r ← DiffEvolResult_init (Z.to_nat npop) npar lo wd;
    mret {| minfun := fn; bounds := bnds; n_gen := ngen; n_pop := npop;
            n_parm := npar; bl := lo; bw := wd; seed := sd; F := f; C := c;
            verbose := verb; rank := None; result := r |}.

(** *** The state of a run

    A run works on the generator, on the result object [self.result] and on
    the console ([rank], generation, [n_gen], least fitness per line). *)
Record heap := {
  np_random : rstate;
  res : DiffEvolResult;
  stdout : list (Z * Z * Z * T)
}.

(** A draw from the generator, within a run. *)
Definition at_rng {A} (m : prog rstate A) : prog heap A :=
  fun h => let (o, g') := m (np_random h) in
           (o, {| np_random := g'; res := res h; stdout := stdout h |}).

Definition set_res (r : DiffEvolResult) : prog heap unit :=
  modify (fun h => {| np_random := np_random h; res := r; stdout := stdout h |}).

(** [r.pop[i,:]] *)
Definition get_row (i : nat) : prog heap (list T) :=
  r ← gets res; index (pop r) i.
(** [r.fitness[i]] *)
Definition get_fit (i : nat) : prog heap T :=
  r ← gets res; index (fitness r) i.
(** [r.pop[i,:] = u] *)
Definition set_row (i : nat) (u : list T) : prog heap unit :=
  r ← gets res;
  if decide (i < length (pop r))
  then set_res {| population := <[i:=u]> (pop r); fitness := fitness r;
                  minidx := minidx r |}
  else raise IndexError.
(** [r.fit[i] = x] *)
Definition set_fit (i : nat) (x : T) : prog heap unit :=
  r ← gets res;
  if decide (i < length (fit r))
  then set_res {| population := population r; fitness := <[i:=x]> (fit r);
                  minidx := minidx r |}
  else raise IndexError.

(** *** __call__ *)

(** A loop out of iterations. *)
Definition timeout {S A} : prog S A := fun s => (Timeout, s).

(** [while bad(t): t = randint(n)], given [fuel] iterations. *)
Fixpoint redraw (fuel : nat) (bad : nat -> bool) (n : Z) (t : nat)
  : prog rstate nat :=
  if bad t then
    match fuel with
    | 0 => timeout
    | S fuel' => k ← randint n; redraw fuel' bad n k
    end
  else mret t.

(** Lines 69-75: [t[:] = i] and the three loops. *)
Definition select_donors (fuel : nat) (n : Z) (i : nat)
  : prog rstate (nat * nat * nat) :=
  t0 ← redraw fuel (fun t => t =? i) n i;
  t1 ← redraw fuel (fun t => (t =? i) || (t =? t0)) n i;
  t2 ← redraw fuel (fun t => (t =? i) || (t =? t0) || (t =? t1)) n i;
  mret (t0, t1, t2).

(** Line 77 *)
Definition mutant (f : T) (a b c : list T) : list T :=
  vadd a (vscale f (vsub b c)).

(** Lines 80-85: the mask, [np.where] against the target row, the forced
    crossing. *)
Definition crossover (e : DiffEvol) (i : nat) (v : list T)
  : prog heap (list T) :=
  rs ← at_rng (random (n_parm e));
  let mask := (fun s => fleb s (C e)) <$> rs in
  x ← get_row i;
  let u := np_where mask v x in
  ri ← at_rng (randint (Z.of_nat (n_parm e)));
  vri ← index v ri;
  if decide (ri < length u) then mret (<[ri:=vri]> u) else raise IndexError.

(** Lines 87-91 *)
Definition selection (e : DiffEvol) (i : nat) (u : list T) : prog heap unit :=
  let ufit := minfun e u in
  fi ← get_fit i;
  if fltb ufit fi then set_row i u;; set_fit i ufit else mret tt.

(** The body of the inner loop, lines 69-91. *)
Definition step (fuel : nat) (e : DiffEvol) (i : nat) : prog heap unit :=
  '(t0, t1, t2) ← at_rng (select_donors fuel (n_pop e) i);
  a ← get_row t0;
  b ← get_row t1;
  c ← get_row t2;
  let v := mutant (F e) a b c in
  u ← crossover e i v;
  selection e i u.

(** [isnan], as [x != x]. *)
Definition isnan (x : T) : bool := negb (fleb x x).

(** [np.argmin]: the first index of the least entry; a NaN counts as
    least.  [k] is the index of [x], [(j, m)] the least so far. *)
Fixpoint argmin_from (k : nat) (xs : list T) (j : nat) (m : T) : nat :=
  match xs with
  | [] => j
  | x :: rest =>
      if isnan m then j
      else if fleb m x then argmin_from (S k) rest j m
      else argmin_from (S k) rest k x
  end.
Definition argmin {S} (xs : list T) : prog S nat :=
  match xs with
  | [] => raise ValueError
  | x :: rest => mret (argmin_from 1 rest 0 x)
  end.

(** [r.fit.min()] *)
Definition amin {S} (xs : list T) : prog S T :=
  k ← argmin xs; index xs k.

(** Lines 93-94.  The arguments of [%] are evaluated left to right, so
    [self.rank] is looked up first. *)
Definition report (e : DiffEvol) (j : nat) : prog heap unit :=
  if verbose e then
    match rank e with
    | None => raise AttributeError
    | Some rk =>
        r ← gets res;
        m ← amin (fit r);
        modify (fun h =>
          {| np_random := np_random h; res := res h;
             stdout := stdout h ++ [(rk, Z.of_nat j + 1, n_gen e, m)%Z] |})
    end
  else mret tt.

(** Line 65 *)
Definition evaluate (e : DiffEvol) (i : nat) : prog heap unit :=
  x ← get_row i; set_fit i (minfun e x).

(** Lines 68-91: the inner loop. *)
Definition sweep (fuel : nat) (e : DiffEvol) : prog heap unit :=
  for_in (xrange (n_pop e)) (step fuel e).

(** Lines 68-94: the body of the outer loop. *)
Definition generation (fuel : nat) (e : DiffEvol) (j : nat) : prog heap unit :=
  sweep fuel e;; report e j.

(** Lines 96-97 *)
Definition best_index : prog heap DiffEvolResult :=
  r ← gets res;
  k ← argmin (fitness r);
  set_res {| population := population r; fitness := fitness r;
             minidx := Some k |};;
  gets res.

(** [DiffEvol.__call__]; [fuel] bounds the iterations of each [while]. *)
Definition DiffEvol_call (fuel : nat) (e : DiffEvol) : prog heap DiffEvolResult :=
  for_in (xrange (n_pop e)) (evaluate e);;
  for_in (xrange (n_gen e)) (generation fuel e);;
  best_index.

(** The heap a call starts from: [r = self.result], nothing printed yet. *)
Definition enter (e : DiffEvol) (g : rstate) : heap :=
  {| np_random := g; res := result e; stdout := [] |}.

End Model.

Arguments DiffEvolResult T : clear implicits.
Arguments DiffEvol T : clear implicits.
Arguments ndarray T : clear implicits.

(** * The vocabulary of the properties *)

(** An outcome that is a returned value. *)
Definition returns {A} (o : outcome A) : Prop :=
  match o with Ret _ => True | _ => False end.

Section Vocabulary.
Context {T : Type} {AT : Arith T} {RS : RandomState T}.

(** The generator after [k] consecutive draws of [rk_interval m], and the
    value of the draw that follows them. *)
Fixpoint after_draws (m k : nat) (g : rstate) : rstate :=
  match k with
  | 0 => g
  | S k' => after_draws m k' (rk_interval m g).2
  end.
Definition draw_at (m k : nat) (g : rstate) : nat :=
  (rk_interval m (after_draws m k g)).1.

(** Every value of [0, m] keeps coming: what a uniform stream does with
    probability one, and what rejection sampling needs to end. *)
Definition recurrent (m : nat) (g : rstate) : Prop :=
  forall k v, v <= m -> exists j, k <= j /\ draw_at m j g = v.

(** Target and donors are four different indices. *)
Definition distinct4 (i t0 t1 t2 : nat) : Prop :=
  t0 <> i /\ t1 <> i /\ t2 <> i /\ t0 <> t1 /\ t0 <> t2 /\ t1 <> t2.

(** The engine [__init__] builds from its arguments and the matrix [u] that
    [random([npop, npar])] returned. *)
Definition built (fn : list T -> T) (bnds : list (T * T)) (npop ngen : Z)
    (f c : T) (sd : Z) (verb : bool) (u : list (list T)) : DiffEvol T :=
  let lo := tile (fst <$> bnds) (Z.to_nat npop) in
  let wd := tile ((fun p => fsub p.2 p.1) <$> bnds) (Z.to_nat npop) in
  {| minfun := fn; bounds := bnds; n_gen := ngen; n_pop := npop;
     n_parm := length bnds; bl := lo; bw := wd; seed := sd; F := f; C := c;
     verbose := verb; rank := None;
     result := {| population := madd lo (mmul u wd);
                  fitness := replicate (Z.to_nat npop) fzero;
                  minidx := None |} |}.

(** The store and the engine agree on their shapes. *)
Definition well_shaped (e : DiffEvol T) (r : DiffEvolResult T) : Prop :=
  length (population r) = Z.to_nat (n_pop e) /\
  length (fitness r) = Z.to_nat (n_pop e) /\
  Forall (fun row => length row = n_parm e) (population r).

(** Entry [(i, j)] of a matrix. *)
Definition entry (m : list (list T)) (i j : nat) : option T :=
  match m !! i with
  | Some row => row !! j
  | None => None
  end.

(** Every entry lies in the half-open interval of its parameter. *)
Definition within_bounds (bnds : list (T * T)) (m : list (list T)) : Prop :=
  forall i j x lo hi,
    entry m i j = Some x -> bnds !! j = Some (lo, hi) ->
    fleb lo x = true /\ fltb x hi = true.

(** Row and fitness of slot [i]. *)
Definition slot (r : DiffEvolResult T) (i : nat) : option (list T) * option T :=
  (population r !! i, fitness r !! i).

(** Slot [i] of [r'] is slot [i] of [r], or it holds a trial [u] with its
    objective value, and that value is strictly below the old fitness. *)
Definition kept_or_improved (fn : list T -> T) (r r' : DiffEvolResult T)
    (i : nat) : Prop :=
  slot r' i = slot r i \/
  exists u old,
    slot r' i = (Some u, Some (fn u)) /\
    fitness r !! i = Some old /\ fltb (fn u) old = true.

(** What one pass of the inner loop for target [i] may do to the store. *)
Definition touches_only (e : DiffEvol T) (i : nat) (r r' : DiffEvolResult T)
  : Prop :=
  well_shaped e r' /\
  (forall k, k <> i -> slot r' k = slot r k) /\
  kept_or_improved (minfun e) r r' i.

(** The reference order, in the words of the specification: evaluate all
    [n_pop] initial individuals once up front, then for each of [n_gen]
    generations sweep [i] from 0 to [n_pop - 1], performing the steps in
    place. *)
Fixpoint reference_evaluate_from (e : DiffEvol T) (i count : nat)
  : prog heap unit :=
  match count with
  | 0 => mret tt
  | S c => evaluate e i;; reference_evaluate_from e (S i) c
  end.

Fixpoint reference_sweep_from (fuel : nat) (e : DiffEvol T) (i count : nat)
  : prog heap unit :=
  match count with
  | 0 => mret tt
  | S c => step fuel e i;; reference_sweep_from fuel e (S i) c
  end.

Fixpoint reference_generations_from (fuel : nat) (e : DiffEvol T)
    (j count : nat) : prog heap unit :=
  match count with
  | 0 => mret tt
  | S c =>
      reference_sweep_from fuel e 0 (Z.to_nat (n_pop e));;
      report e j;;
      reference_generations_from fuel e (S j) c
  end.

Definition reference_run (fuel : nat) (e : DiffEvol T)
  : prog heap (DiffEvolResult T) :=
  reference_evaluate_from e 0 (Z.to_nat (n_pop e));;
  reference_generations_from fuel e 0 (Z.to_nat (n_gen e));;
  best_index.

(** The generational variant the specification sets the reference apart
    from: every pass of a sweep reads the rows the generation began with. *)
Definition step_double_buffered (fuel : nat) (e : DiffEvol T)
    (old : list (list T)) (i : nat) : prog heap unit :=
  '(t0, t1, t2) ← at_rng (select_donors fuel (n_pop e) i);
  a ← index old t0;
  b ← index old t1;
  c ← index old t2;
  let v := mutant (F e) a b c in
  rs ← at_rng (random (n_parm e));
  let mask := (fun s => fleb s (C e)) <$> rs in
  x ← index old i;
  let u := np_where mask v x in
  ri ← at_rng (randint (Z.of_nat (n_parm e)));
  vri ← index v ri;
  u' ← (if decide (ri < length u) then mret (<[ri:=vri]> u)
        else raise IndexError);
  selection e i u'.

Definition sweep_double_buffered (fuel : nat) (e : DiffEvol T)
  : prog heap unit :=
  r ← gets res;
  for_in (xrange (n_pop e)) (step_double_buffered fuel e (pop r)).

(** Construction followed by the run, from the generator state [g] the
    process happens to be in. *)
Definition construct_and_run (fn : list T -> T) (bnds : list (T * T))
    (npop ngen : Z) (f c : T) (sd : Z) (verb : bool) (fuel : nat) (g : rstate)
  : outcome (outcome (DiffEvolResult T) * heap) :=
  match DiffEvol_init fn bnds npop ngen f c sd verb g with
  | (Ret e, g') => Ret (DiffEvol_call fuel e (enter e g'))
  | (Raise x, _) => Raise x
  | (Timeout, _) => Timeout
  end.

(** The fitness vector is not stale: every slot holds the objective value
    of its row. *)
Definition synced (fn : list T -> T) (r : DiffEvolResult T) : Prop :=
  forall i row, population r !! i = Some row -> fitness r !! i = Some (fn row).

(** The generator is recurrent from every state it can be in. *)
Definition always_recurrent (m : nat) : Prop :=
  forall g : rstate, recurrent m g.


(** [<] is transitive. *)
Definition transitive_ltb : Prop :=
  forall x y z : T, fltb x y = true -> fltb y z = true -> fltb x z = true.

End Vocabulary.

Section ExactVocabulary.
Context {RS : RandomState Q}.

(** [random()] returns numbers of [0, 1). *)
Definition unit_samples : Prop :=
  forall g : rstate, (0 <= (random_sample g).1 /\ (random_sample g).1 < 1)%Q.

(** The invariant of ParameterBounds: lower < upper for every pair. *)
Definition ordered_bounds (bnds : list (Q * Q)) : Prop :=
  forall lo hi, (lo, hi) ∈ bnds -> (lo < hi)%Q.

End ExactVocabulary.

(** ** A generator to run the model on

    A tape of raw 53-bit words followed by the counter 0, 1, 2, ...; a seed
    selects its tape through [table], as a seed selects a Mersenne Twister
    stream.  [random()] is the word scaled by 2^-53 and [rk_interval m] the
    word reduced mod [m + 1]. *)

Record tape := { script : list N; counter : N }.

Definition next_raw (t : tape) : N * tape :=
  match script t with
  | w :: rest => (w, {| script := rest; counter := counter t |})
  | [] => (counter t, {| script := []; counter := N.succ (counter t) |})
  end.

Definition tape_interval (m : nat) (t : tape) : nat * tape :=
  let (w, t') := next_raw t in (N.to_nat w mod S m, t').

Lemma tape_interval_le m t : (tape_interval m t).1 <= m.
Proof.
  unfold tape_interval. destruct (next_raw t) as [w t']. simpl.
  pose proof (Nat.mod_upper_bound (N.to_nat w) (S m)). lia.
Qed.

Definition tape_rng {T} (of_raw : N -> T) (table : Z -> list N) : RandomState T := {|
  rstate := tape;
  seed_state := fun s => {| script := table s; counter := 0 |};
  random_sample := fun t => let (w, t') := next_raw t in (of_raw w, t');
  rk_interval := tape_interval;
  rk_interval_le := tape_interval_le
|}.

(** The float64 of [w * 2^-53], and the same fraction exactly. *)
Definition float_of_raw (w : N) : float :=
  (PrimFloat.of_uint63 (Uint63.of_Z (Z.of_N w mod 2 ^ 53)) * 0x1p-53)%float.
Definition Q_of_raw (w : N) : Q := (Z.of_N w mod 2 ^ 53) # (2 ^ 53).

Definition float_tape := tape_rng float_of_raw.
Definition Q_tape := tape_rng Q_of_raw.

(** [np.random] before any seeding of ours. *)
Definition fresh_tape : tape := {| script := []; counter := 0 |}.

(** The objective of the examples: the sum of squares. *)
Definition sum_squares `{Arith T} (x : list T) : T :=
  foldr (fun a acc => fadd (fmul a a) acc) fzero x.

(** ** Concrete inputs *)

(** Seeds 1 and 2 select short tapes; every other seed the counter alone. *)
Definition demo_table (s : Z) : list N :=
  match s with
  | 1%Z => [2 ^ 52; 2 ^ 51; 3 * 2 ^ 51; 2 ^ 50]%N
  | 2%Z => [2 ^ 53 - 1]%N
  | _ => []
  end.

Definition demo_rng : RandomState float := float_tape demo_table.
Definition demo_rng_Q : RandomState Q := Q_tape demo_table.
#[export] Existing Instance demo_rng.

(** The engine [DiffEvol(sum_squares, [[-5, 5]], 4, 1, seed=1,
    verbose=False)] and its store after the initial evaluation. *)
Definition demo_engine : DiffEvol float :=
  built sum_squares [((-5)%float, 5%float)] 4 1 0.5%float 0.5%float 1 false
    [[0.5%float]; [0.25%float]; [0.75%float]; [0.125%float]].

Definition demo_heap : heap (T := float) :=
  {| np_random := fresh_tape;
     res := {| population := [[0%float]; [(-2.5)%float]; [2.5%float];
                              [(-3.75)%float]];
               fitness := [0%float; 6.25%float; 6.25%float; 14.0625%float];
               minidx := None |};
     stdout := [] |}.

(** The engine of [demo_engine] in exact arithmetic. *)
Definition demo_engine_Q : DiffEvol Q :=
  built sum_squares [((-5)%Q, 5%Q)] 4 1 (1 # 2)%Q (1 # 2)%Q 1 false
    [[Q_of_raw (2 ^ 52)]; [Q_of_raw (2 ^ 51)]; [Q_of_raw (3 * 2 ^ 51)];
     [Q_of_raw (2 ^ 50)]].

(** [demo_engine] with [verbose=True], and with no generation to run. *)
Definition demo_engine_verbose : DiffEvol float :=
  built sum_squares [((-5)%float, 5%float)] 4 1 0.5%float 0.5%float 1 true
    [[0.5%float]; [0.25%float]; [0.75%float]; [0.125%float]].

Definition demo_engine_idle : DiffEvol float :=
  built sum_squares [((-5)%float, 5%float)] 4 0 0.5%float 0.5%float 1 false
    [[0.5%float]; [0.25%float]; [0.75%float]; [0.125%float]].

(** What the call of [demo_engine] on [demo_heap] returns and leaves. *)
Definition demo_result : DiffEvolResult float :=
  {| population := [[0%float]; [0.625%float]; [2.5%float]; [(-0.9375)%float]];
     fitness := [0%float; 0.390625%float; 6.25%float; 0.87890625%float];
     minidx := Some 0 |}.

Definition demo_heap_after : heap (T := float) :=
  {| np_random := {| script := []; counter := 21 |};
     res := demo_result;
     stdout := [] |}.

(** The same engine and store in exact arithmetic, with [n_gen] and [C] to
    choose. *)
Definition demo_engine_Q_with (ngen : Z) (c : Q) : DiffEvol Q :=
  built sum_squares [((-5)%Q, 5%Q)] 4 ngen (1 # 2)%Q c 1 false
    [[Q_of_raw (2 ^ 52)]; [Q_of_raw (2 ^ 51)]; [Q_of_raw (3 * 2 ^ 51)];
     [Q_of_raw (2 ^ 50)]].

Definition demo_population_Q : list (list Q) :=
  [[0%Q]; [(-5 # 2)%Q]; [(5 # 2)%Q]; [(-15 # 4)%Q]].

Definition demo_heap_Q : @heap Q demo_rng_Q :=
  @Build_heap Q demo_rng_Q fresh_tape
    {| population := demo_population_Q;
       fitness := sum_squares <$> demo_population_Q;
       minidx := None |}
    [].


(** * Properties *)

(** ** Tactics *)

Ltac prog_unfold :=
  unfold mbind, mret, prog_bind, prog_ret, bind, ret, raise, gets, modify,
    timeout in *.

(** ** Reasoning about programs *)

Lemma bind_Ret_inv {S A B} (m : prog S A) (k : A -> prog S B) s b s2 :
  (m ≫= k) s = (Ret b, s2) ->
  exists a s1, m s = (Ret a, s1) /\ k a s1 = (Ret b, s2).
Proof.
  prog_unfold. destruct (m s) as [[a| |] s1]; intros E; try discriminate.
  eauto.
Qed.

Lemma bind_Ret {S A B} (m : prog S A) (k : A -> prog S B) s a s1 :
  m s = (Ret a, s1) -> (m ≫= k) s = k a s1.
Proof. prog_unfold. intros ->. reflexivity. Qed.

Lemma bind_Raise {S A B} (m : prog S A) (k : A -> prog S B) s e s1 :
  m s = (Raise e, s1) -> (m ≫= k) s = (Raise e, s1).
Proof. prog_unfold. intros ->. reflexivity. Qed.

Lemma bind_Timeout {S A B} (m : prog S A) (k : A -> prog S B) s s1 :
  m s = (Timeout, s1) -> (m ≫= k) s = (Timeout, s1).
Proof. prog_unfold. intros ->. reflexivity. Qed.

Lemma bind_assoc {S A B D} (m : prog S A) (k : A -> prog S B)
    (k' : B -> prog S D) s :
  ((m ≫= k) ≫= k') s = (m ≫= (fun a => k a ≫= k')) s.
Proof. prog_unfold. destruct (m s) as [[a| |] s1]; reflexivity. Qed.

(** If the continuation never returns, neither does the whole. *)
Lemma bind_never_returns {S A B} (m : prog S A) (k : A -> prog S B) s :
  (forall a s1, ~ returns (k a s1).1) -> ~ returns ((m ≫= k) s).1.
Proof.
  intros Hk. prog_unfold. destruct (m s) as [[a| |] s1]; simpl; auto.
Qed.

Section Draws.
Context {T : Type} {AT : Arith T} {RS : RandomState T}.

Lemma random_total n g :
  exists xs g', random n g = (Ret xs, g') /\ length xs = n.
Proof.
  revert g. induction n as [|n IH]; intros g; simpl.
  - exists [], g. split; reflexivity.
  - prog_unfold. unfold random1.
    destruct (random_sample g) as [x g1].
    destruct (IH g1) as (xs & g' & E & L). rewrite E.
    exists (x :: xs), g'. split; [reflexivity | simpl; lia].
Qed.

Lemma random2_total m n g :
  exists rows g', random2 m n g = (Ret rows, g') /\ length rows = m /\
    Forall (fun row => length row = n) rows.
Proof.
  revert g. induction m as [|m IH]; intros g; simpl.
  - exists [], g. split; [reflexivity|]. split; [reflexivity | constructor].
  - prog_unfold.
    destruct (random_total n g) as (row & g1 & E1 & L1). rewrite E1.
    destruct (IH g1) as (rows & g' & E & L & Fa). rewrite E.
    exists (row :: rows), g'. split; [reflexivity|].
    split; [simpl; lia | now constructor].
Qed.

Lemma randint_total (n : Z) g :
  (0 < n)%Z ->
  exists k g', randint n g = (Ret k, g') /\ k < Z.to_nat n /\
    (k, g') = rk_interval (Z.to_nat n - 1) g.
Proof.
  intros Hn. unfold randint.
  destruct (Z.leb_spec n 0) as [|_]; [lia|].
  pose proof (rk_interval_le (Z.to_nat n - 1) g) as Hle.
  destruct (rk_interval (Z.to_nat n - 1) g) as [k g'] eqn:E. simpl in Hle.
  exists k, g'. repeat split; lia.
Qed.

Lemma randint_Ret (n : Z) g k g' :
  randint n g = (Ret k, g') -> (0 < n)%Z /\ k < Z.to_nat n.
Proof.
  unfold randint. destruct (Z.leb_spec n 0) as [|Hn]; [discriminate|].
  pose proof (rk_interval_le (Z.to_nat n - 1) g) as Hle.
  destruct (rk_interval (Z.to_nat n - 1) g) as [k0 g0]. simpl in Hle.
  intros [= <- <-]. lia.
Qed.

Lemma randint_empty (n : Z) g :
  (n <= 0)%Z -> randint n g = (Raise ValueError, g).
Proof.
  intros Hn. unfold randint. destruct (Z.leb_spec n 0); [reflexivity | lia].
Qed.

End Draws.

(** ** [np.where] *)

Section Crossover.
Context {T : Type} {AT : Arith T} {RS : RandomState T}.

Lemma np_where_length (c : list bool) (v x : list T) n :
  length c = n -> length v = n -> length x = n ->
  length (np_where c v x) = n.
Proof.
  intros Hc Hv Hx. unfold np_where.
  rewrite length_zip_with, length_zip. lia.
Qed.

Lemma np_where_lookup (c : list bool) (v x : list T) (k : nat) (b : bool) :
  length v = length c -> length x = length c ->
  c !! k = Some b ->
  np_where c v x !! k = if b then v !! k else x !! k.
Proof.
  intros Hv Hx Hb. unfold np_where.
  assert (Hk : k < length c) by (apply lookup_lt_is_Some; eauto).
  destruct (lookup_lt_is_Some_2 v k) as [a Ha]; [lia|].
  destruct (lookup_lt_is_Some_2 x k) as [d Hd]; [lia|].
  rewrite lookup_zip_with, Hb. simpl.
  assert (Hz : zip v x !! k = Some (a, d)) by (apply lookup_zip_Some; auto).
  rewrite Hz. simpl. rewrite Ha, Hd. now destruct b.
Qed.

End Crossover.

(** ** Donor selection *)

Section Donors.
Context {T : Type} {AT : Arith T} {RS : RandomState T}.

Lemma after_draws_add m j k g :
  after_draws m j (after_draws m k g) = after_draws m (k + j) g.
Proof.
  revert g. induction k as [|k IH]; intros g; simpl; [reflexivity | apply IH].
Qed.

Lemma draw_at_add m j k g :
  draw_at m j (after_draws m k g) = draw_at m (k + j) g.
Proof. unfold draw_at. now rewrite after_draws_add. Qed.

Lemma recurrent_after m k g : recurrent m g -> recurrent m (after_draws m k g).
Proof.
  intros Hr k0 v Hv. destruct (Hr (k + k0) v Hv) as (j & Hj & E).
  exists (j - k). split; [lia|].
  rewrite draw_at_add. now replace (k + (j - k)) with j by lia.
Qed.

Lemma randint_rk (n : Z) g :
  (0 < n)%Z ->
  randint n g =
    (Ret (rk_interval (Z.to_nat n - 1) g).1, (rk_interval (Z.to_nat n - 1) g).2).
Proof.
  intros Hn. unfold randint. destruct (Z.leb_spec n 0); [lia|].
  now destruct (rk_interval (Z.to_nat n - 1) g).
Qed.

(** A returned index passed the loop test; it is the entry value or a draw. *)
Lemma redraw_Ret fuel bad n t g k g' :
  redraw fuel bad n t g = (Ret k, g') ->
  bad k = false /\ (k = t \/ k < Z.to_nat n).
Proof.
  revert t g. induction fuel as [|fuel IH]; intros t g; simpl.
  - destruct (bad t) eqn:B; prog_unfold; [discriminate|].
    intros [= <- <-]. auto.
  - destruct (bad t) eqn:B.
    + intros E. apply bind_Ret_inv in E as (k0 & g1 & E0 & E1).
      apply randint_Ret in E0 as [_ Hk0].
      apply IH in E1 as [Hb [->|Hlt]]; auto.
    + prog_unfold. intros [= <- <-]. auto.
Qed.

(** More iterations do not change a loop that has ended. *)
Lemma redraw_more fuel fuel' bad n t g k g' :
  redraw fuel bad n t g = (Ret k, g') -> fuel <= fuel' ->
  redraw fuel' bad n t g = (Ret k, g').
Proof.
  revert fuel' t g. induction fuel as [|fuel IH]; intros fuel' t g; simpl.
  - destruct (bad t) eqn:B; prog_unfold; [discriminate|].
    intros [= <- <-] _. destruct fuel'; simpl; now rewrite B.
  - destruct (bad t) eqn:B.
    + intros E Hle. destruct fuel' as [|fuel']; [lia|]. simpl. rewrite B.
      apply bind_Ret_inv in E as (k0 & g1 & E0 & E1).
      erewrite bind_Ret by exact E0. apply IH; [exact E1 | lia].
    + prog_unfold. intros [= <- <-] _. destruct fuel'; simpl; now rewrite B.
Qed.

(** The loop ends at the first acceptable draw. *)
Lemma redraw_ends bad (n : Z) j :
  (0 < n)%Z ->
  forall t g, bad (draw_at (Z.to_nat n - 1) j g) = false ->
  exists fuel k d,
    redraw fuel bad n t g = (Ret k, after_draws (Z.to_nat n - 1) d g).
Proof.
  intros Hn. induction j as [|j IH]; intros t g Hj.
  - destruct (bad t) eqn:B.
    + exists 1, (draw_at (Z.to_nat n - 1) 0 g), 1. simpl. rewrite B.
      erewrite bind_Ret by (apply randint_rk; exact Hn).
      unfold draw_at in Hj. simpl in Hj. rewrite Hj. reflexivity.
    + exists 0, t, 0. simpl. now rewrite B.
  - destruct (bad t) eqn:B.
    + destruct (IH (rk_interval (Z.to_nat n - 1) g).1
                   (rk_interval (Z.to_nat n - 1) g).2) as (fuel & k & d & E).
      { exact Hj. }
      exists (S fuel), k, (S d). simpl. rewrite B.
      erewrite bind_Ret by (apply randint_rk; exact Hn). exact E.
    + exists 0, t, 0. simpl. now rewrite B.
Qed.

(** When every index of the range fails the test, the loop redraws for as
    long as it is given. *)
Lemma redraw_forever fuel bad (n : Z) t g :
  (0 < n)%Z -> bad t = true ->
  (forall k, k < Z.to_nat n -> bad k = true) ->
  (redraw fuel bad n t g).1 = Timeout.
Proof.
  intros Hn Ht Hall. revert t g Ht.
  induction fuel as [|fuel IH]; intros t g Ht; simpl; rewrite Ht.
  - reflexivity.
  - destruct (randint_total n g Hn) as (k & g1 & E & Hk & _).
    erewrite bind_Ret by exact E. apply IH, Hall, Hk.
Qed.

Lemma orb_false_3 (a b c : bool) :
  a || b || c = false -> a = false /\ b = false /\ c = false.
Proof. destruct a, b, c; simpl; auto; discriminate. Qed.

(** Whatever the selection returns is three donors of the range, distinct
    from the target and from each other. *)
Lemma select_donors_Ret fuel (n : Z) i g t0 t1 t2 g' :
  select_donors fuel n i g = (Ret (t0, t1, t2), g') ->
  distinct4 i t0 t1 t2 /\
  t0 < Z.to_nat n /\ t1 < Z.to_nat n /\ t2 < Z.to_nat n.
Proof.
  unfold select_donors. intros E.
  apply bind_Ret_inv in E as (a & g1 & E0 & E).
  apply bind_Ret_inv in E as (b & g2 & E1 & E).
  apply bind_Ret_inv in E as (c & g3 & E2 & E).
  prog_unfold. injection E as <- <- <- <-.
  apply redraw_Ret in E0 as [B0 R0], E1 as [B1 R1], E2 as [B2 R2].
  apply Nat.eqb_neq in B0.
  apply orb_false_iff in B1 as [B1a B1b].
  apply orb_false_3 in B2 as (B2a & B2b & B2c).
  apply Nat.eqb_neq in B1a, B1b, B2a, B2b, B2c.
  unfold distinct4. lia.
Qed.

(** With four indices to choose from, one differs from any three. *)
Lemma fresh_index (a b c : nat) :
  exists v, v <= 3 /\ v <> a /\ v <> b /\ v <> c.
Proof.
  assert (H : (0 <> a /\ 0 <> b /\ 0 <> c) \/ (1 <> a /\ 1 <> b /\ 1 <> c) \/
              (2 <> a /\ 2 <> b /\ 2 <> c) \/ (3 <> a /\ 3 <> b /\ 3 <> c))
    by lia.
  destruct H as [H|[H|[H|H]]];
    [exists 0 | exists 1 | exists 2 | exists 3]; (split; [lia | exact H]).
Qed.

(** One loop of the selection under a recurrent stream: it ends, and
    leaves the stream recurrent. *)
Lemma redraw_recurrent (bad : nat -> bool) (n : Z) t g v :
  (0 < n)%Z -> recurrent (Z.to_nat n - 1) g ->
  v <= Z.to_nat n - 1 -> bad v = false ->
  exists fuel k g',
    redraw fuel bad n t g = (Ret k, g') /\ recurrent (Z.to_nat n - 1) g'.
Proof.
  intros Hn Hr Hv Hb.
  destruct (Hr 0 v Hv) as (j & _ & Ej).
  destruct (redraw_ends bad n j Hn t g) as (fuel & k & d & E).
  { now rewrite Ej. }
  exists fuel, k, (after_draws (Z.to_nat n - 1) d g).
  split; [exact E | now apply recurrent_after].
Qed.

(** C9 (distinct donors).  Take a population of at least four, a target
    [i] of its range and a stream in which every index keeps coming.  Then
    the three redraw loops end: from some iteration budget on, the selection
    returns donors [t0], [t1], [t2]; they lie in [0, n_pop) and form with
    [i] four pairwise distinct indices.  (By [select_donors_Ret] the second
    half holds for whatever is returned on any stream.) *)
Theorem donors_distinct (n : Z) (i : nat) (g : rstate) :
  (4 <= n)%Z -> i < Z.to_nat n -> recurrent (Z.to_nat n - 1) g ->
  exists fuel t0 t1 t2 g',
    (forall fuel', fuel <= fuel' ->
       select_donors fuel' n i g = (Ret (t0, t1, t2), g')) /\
    t0 <> i /\ t1 <> i /\ t2 <> i /\ t0 <> t1 /\ t0 <> t2 /\ t1 <> t2 /\
    t0 < Z.to_nat n /\ t1 < Z.to_nat n /\ t2 < Z.to_nat n.
Proof.
  intros Hn Hi Hr.
  destruct (fresh_index i i i) as (v0 & L0 & N0 & _).
  destruct (redraw_recurrent (fun t => t =? i) n i g v0)
    as (f0 & t0 & g0 & E0 & R0); [lia | exact Hr | lia | |].
  { now apply Nat.eqb_neq. }
  destruct (fresh_index i t0 t0) as (v1 & L1 & N1a & N1b & _).
  destruct (redraw_recurrent (fun t => (t =? i) || (t =? t0)) n i g0 v1)
    as (f1 & t1 & g1 & E1 & R1); [lia | exact R0 | lia | |].
  { apply orb_false_iff. split; now apply Nat.eqb_neq. }
  destruct (fresh_index i t0 t1) as (v2 & L2 & N2a & N2b & N2c).
  destruct (redraw_recurrent (fun t => (t =? i) || (t =? t0) || (t =? t1))
              n i g1 v2) as (f2 & t2 & g2 & E2 & _); [lia | exact R1 | lia | |].
  { apply orb_false_iff. split; [apply orb_false_iff; split|];
      now apply Nat.eqb_neq. }
  assert (E : forall fuel', Nat.max f0 (Nat.max f1 f2) <= fuel' ->
            select_donors fuel' n i g = (Ret (t0, t1, t2), g2)).
  { intros fuel' Hf. unfold select_donors.
    erewrite bind_Ret by (eapply redraw_more; [exact E0 | lia]).
    erewrite bind_Ret by (eapply redraw_more; [exact E1 | lia]).
    erewrite bind_Ret by (eapply redraw_more; [exact E2 | lia]).
    reflexivity. }
  exists (Nat.max f0 (Nat.max f1 f2)), t0, t1, t2, g2.
  split; [exact E|].
  destruct (select_donors_Ret _ n i g t0 t1 t2 g2 (E _ (le_n _)))
    as ((D1 & D2 & D3 & D4 & D5 & D6) & H0 & H1 & H2).
  tauto.
Qed.

(** A loop over a range that is not empty raises nothing. *)
Lemma redraw_no_raise fuel bad (n : Z) t g e g' :
  (0 < n)%Z -> redraw fuel bad n t g <> (Raise e, g').
Proof.
  intros Hn. revert t g.
  induction fuel as [|fuel IH]; intros t g; simpl;
    destruct (bad t); prog_unfold; try discriminate.
  destruct (randint_total n g Hn) as (k & g1 & E & _). rewrite E. apply IH.
Qed.

(** With at most three individuals no index is left for the third donor, or
    already for an earlier one: the selection never returns. *)
Lemma select_donors_starved fuel (n : Z) (i : nat) (g : rstate) :
  (1 <= n <= 3)%Z -> i < Z.to_nat n ->
  (select_donors fuel n i g).1 = Timeout.
Proof.
  intros Hn Hi. unfold select_donors.
  destruct (redraw fuel (fun t => t =? i) n i g) as [[t0|e|] g0] eqn:E0.
  2:{ exfalso. eapply redraw_no_raise; [|exact E0]. lia. }
  2:{ now erewrite bind_Timeout by exact E0. }
  erewrite bind_Ret by exact E0.
  apply redraw_Ret in E0 as [B0 R0]. apply Nat.eqb_neq in B0.
  destruct (redraw fuel (fun t => (t =? i) || (t =? t0)) n i g0)
    as [[t1|e|] g1] eqn:E1.
  2:{ exfalso. eapply redraw_no_raise; [|exact E1]. lia. }
  2:{ now erewrite bind_Timeout by exact E1. }
  erewrite bind_Ret by exact E1.
  apply redraw_Ret in E1 as [B1 R1].
  apply orb_false_iff in B1 as [B1a B1b]. apply Nat.eqb_neq in B1a, B1b.
  pose proof (redraw_forever fuel
    (fun t => (t =? i) || (t =? t0) || (t =? t1)) n i g1) as H.
  destruct (redraw fuel (fun t => (t =? i) || (t =? t0) || (t =? t1)) n i g1)
    as [o g2] eqn:E2. simpl in H.
  assert (Ho : o = Timeout).
  { apply H; [lia | now rewrite Nat.eqb_refl |].
    intros k Hk.
    destruct (Nat.eqb_spec k i); [reflexivity|].
    destruct (Nat.eqb_spec k t0); [reflexivity|].
    destruct (Nat.eqb_spec k t1); [reflexivity|]. lia. }
  subst o. erewrite bind_Timeout by exact E2. reflexivity.
Qed.

End Donors.

(** ** Construction *)

Section Construction.
Context {T : Type} {AT : Arith T} {RS : RandomState T}.

Lemma np_random_seed_ok (sd : Z) g :
  (0 <= sd < 2 ^ 32)%Z -> np_random_seed sd g = (Ret tt, seed_state sd).
Proof.
  intros Hs. unfold np_random_seed.
  destruct (Z.leb_spec 0 sd); [|lia]. destruct (Z.ltb_spec sd (2 ^ 32)); [|lia].
  reflexivity.
Qed.

Lemma DiffEvol_init_Ret fn bnds npop ngen f c sd verb g :
  (0 <= npop)%Z -> (0 <= sd < 2 ^ 32)%Z ->
  exists u g',
    random2 (Z.to_nat npop) (length bnds) (seed_state sd) = (Ret u, g') /\
    length u = Z.to_nat npop /\
    Forall (fun row => length row = length bnds) u /\
    DiffEvol_init fn bnds npop ngen f c sd verb g =
      (Ret (built fn bnds npop ngen f c sd verb u), g').
Proof.
  intros Hn Hs.
  destruct (random2_total (Z.to_nat npop) (length bnds) (seed_state sd))
    as (u & g' & Eu & Lu & Fu).
  exists u, g'. repeat (split; [assumption|]).
  unfold DiffEvol_init. destruct (Z.ltb_spec npop 0); [lia|].
  erewrite bind_Ret by (apply np_random_seed_ok; exact Hs).
  unfold DiffEvolResult_init.
  rewrite bind_assoc. erewrite bind_Ret by exact Eu. reflexivity.
Qed.

(** What [__init__] returns was built by it. *)
Lemma DiffEvol_init_inv fn bnds npop ngen f c sd verb g e g' :
  DiffEvol_init fn bnds npop ngen f c sd verb g = (Ret e, g') ->
  (0 <= npop)%Z /\ (0 <= sd < 2 ^ 32)%Z /\
  exists u,
    random2 (Z.to_nat npop) (length bnds) (seed_state sd) = (Ret u, g') /\
    length u = Z.to_nat npop /\
    Forall (fun row => length row = length bnds) u /\
    e = built fn bnds npop ngen f c sd verb u.
Proof.
  intros E.
  assert (Hn : (0 <= npop)%Z).
  { unfold DiffEvol_init in E. destruct (Z.ltb_spec npop 0); [|lia].
    prog_unfold. discriminate. }
  assert (Hs : (0 <= sd < 2 ^ 32)%Z).
  { unfold DiffEvol_init in E. destruct (Z.ltb_spec npop 0); [lia|].
    apply bind_Ret_inv in E as ([] & g1 & E1 & _).
    unfold np_random_seed in E1.
    destruct (Z.leb_spec 0 sd); destruct (Z.ltb_spec sd (2 ^ 32));
      simpl in E1; prog_unfold; try discriminate. lia. }
  split; [exact Hn|]. split; [exact Hs|].
  destruct (DiffEvol_init_Ret fn bnds npop ngen f c sd verb g Hn Hs)
    as (u & g2 & Eu & Lu & Fu & Ee).
  rewrite Ee in E. injection E as <- <-. eauto.
Qed.

Lemma madd_mmul_length (lo wd u : list (list T)) n :
  length lo = n -> length wd = n -> length u = n ->
  length (madd lo (mmul u wd)) = n.
Proof.
  intros. unfold madd, mmul. rewrite !length_zip_with. lia.
Qed.

Lemma madd_mmul_row (lo wd u : list (list T)) i a w s :
  lo !! i = Some a -> wd !! i = Some w -> u !! i = Some s ->
  madd lo (mmul u wd) !! i = Some (vadd a (zip_with fmul s w)).
Proof.
  intros Ha Hw Hs. unfold madd, mmul.
  rewrite !lookup_zip_with, Ha, Hs, Hw. reflexivity.
Qed.

Lemma built_well_shaped fn bnds npop ngen f c sd verb u :
  length u = Z.to_nat npop ->
  Forall (fun row => length row = length bnds) u ->
  well_shaped (built fn bnds npop ngen f c sd verb u)
              (result (built fn bnds npop ngen f c sd verb u)).
Proof.
  intros Lu Fu. unfold well_shaped, built, tile. simpl.
  split; [|split].
  - apply madd_mmul_length; auto using length_replicate.
  - apply length_replicate.
  - apply Forall_lookup. intros i row Hrow.
    assert (Hi : i < Z.to_nat npop).
    { apply lookup_lt_Some in Hrow.
      rewrite (madd_mmul_length _ _ _ (Z.to_nat npop)) in Hrow;
        auto using length_replicate. }
    destruct (lookup_lt_is_Some_2 u i) as [s Hs]; [lia|].
    erewrite madd_mmul_row in Hrow;
      [|apply lookup_replicate_2; exact Hi
       |apply lookup_replicate_2; exact Hi|exact Hs].
    injection Hrow as <-.
    rewrite Forall_lookup in Fu. specialize (Fu i s Hs).
    unfold vadd. rewrite !length_zip_with, !length_fmap. lia.
Qed.

(** Each initial entry is [lower + u * (upper - lower)], with [u] the draw
    at the entry's place in row-major order. *)
Lemma initial_entry_formula fn bnds npop ngen f c sd verb g e g' :
  DiffEvol_init fn bnds npop ngen f c sd verb g = (Ret e, g') ->
  exists u,
    random2 (Z.to_nat npop) (length bnds) (seed_state sd) = (Ret u, g') /\
    forall i j lo hi,
      i < Z.to_nat npop -> bnds !! j = Some (lo, hi) ->
      exists s, entry u i j = Some s /\
        entry (population (result e)) i j =
          Some (fadd lo (fmul s (fsub hi lo))).
Proof.
  intros E. apply DiffEvol_init_inv in E as (Hn & Hs & u & Eu & Lu & Fu & ->).
  exists u. split; [exact Eu|]. intros i j lo hi Hi Hj.
  destruct (lookup_lt_is_Some_2 u i) as [row Hrow]; [lia|].
  rewrite Forall_lookup in Fu. specialize (Fu i row Hrow).
  assert (Hjlt : j < length bnds) by (eapply lookup_lt_Some; exact Hj).
  destruct (lookup_lt_is_Some_2 row j) as [s Hs']; [lia|].
  exists s. unfold entry. rewrite Hrow. split; [exact Hs'|].
  simpl. unfold tile.
  erewrite madd_mmul_row;
    [|apply lookup_replicate_2; exact Hi
     |apply lookup_replicate_2; exact Hi|exact Hrow].
  unfold vadd. rewrite !lookup_zip_with, !list_lookup_fmap, Hj, Hs'.
  reflexivity.
Qed.

Lemma random_Forall (P : T -> Prop) n g xs g' :
  (forall g0, P (random_sample g0).1) ->
  random n g = (Ret xs, g') -> Forall P xs.
Proof.
  intros HP. revert g xs. induction n as [|n IH]; intros g xs; simpl.
  - prog_unfold. intros [= <- <-]. constructor.
  - intros E. apply bind_Ret_inv in E as (x & g1 & E1 & E).
    apply bind_Ret_inv in E as (rest & g2 & E2 & E).
    prog_unfold. injection E as <- <-.
    unfold random1 in E1. specialize (HP g).
    destruct (random_sample g) as [x0 g0]. injection E1 as <- <-.
    constructor; [exact HP | eapply IH; exact E2].
Qed.

Lemma random2_Forall (P : T -> Prop) m n g rows g' :
  (forall g0, P (random_sample g0).1) ->
  random2 m n g = (Ret rows, g') -> Forall (Forall P) rows.
Proof.
  intros HP. revert g rows. induction m as [|m IH]; intros g rows; simpl.
  - prog_unfold. intros [= <- <-]. constructor.
  - intros E. apply bind_Ret_inv in E as (row & g1 & E1 & E).
    apply bind_Ret_inv in E as (rest & g2 & E2 & E).
    prog_unfold. injection E as <- <-.
    constructor; [eapply random_Forall; eauto | eapply IH; exact E2].
Qed.

(** The queries on a store whose [minidx] is still [None]. *)
Lemma get_fitness_unset (r : DiffEvolResult T) :
  minidx r = None -> get_fitness r = Ret (Array2 [fitness r]).
Proof. unfold get_fitness. now intros ->. Qed.

Lemma get_best_fit_unset (r : DiffEvolResult T) :
  minidx r = None -> get_best_fit r = Ret (Array3 [population r]).
Proof. unfold get_best_fit. now intros ->. Qed.

(** C1, as the code has it.  [__init__] checks none of its arguments and
    does not call the objective.  For every population size that is not
    negative and every seed of [0, 2^32), whatever the bounds, [F], [C] and
    [n_gen] are, it returns an engine whose store has [n_pop] rows of
    [n_parm] entries, a zero fitness vector and no best index; the store and
    the generator it leaves are the same for every objective function. *)
Theorem construction_unvalidated (fn : list T -> T) (bnds : list (T * T))
    (npop ngen : Z) (f c : T) (sd : Z) (verb : bool) (g : rstate) :
  (0 <= npop)%Z -> (0 <= sd < 2 ^ 32)%Z ->
  exists e g',
    DiffEvol_init fn bnds npop ngen f c sd verb g = (Ret e, g') /\
    well_shaped e (result e) /\
    n_pop e = npop /\ n_parm e = length bnds /\
    fitness (result e) = replicate (Z.to_nat npop) fzero /\
    minidx (result e) = None /\
    forall fn', exists e',
      DiffEvol_init fn' bnds npop ngen f c sd verb g = (Ret e', g') /\
      result e' = result e.
Proof.
  intros Hn Hs.
  destruct (DiffEvol_init_Ret fn bnds npop ngen f c sd verb g Hn Hs)
    as (u & g' & Eu & Lu & Fu & E).
  exists (built fn bnds npop ngen f c sd verb u), g'.
  split; [exact E|]. split; [now apply built_well_shaped|].
  do 4 (split; [reflexivity|]).
  intros fn'.
  destruct (DiffEvol_init_Ret fn' bnds npop ngen f c sd verb g Hn Hs)
    as (u' & g2 & Eu' & _ & _ & E').
  rewrite Eu in Eu'. injection Eu' as <- <-.
  exists (built fn' bnds npop ngen f c sd verb u). split; [exact E' | reflexivity].
Qed.

(** The only exception of [__init__] is numpy's [ValueError]. *)
Lemma construction_raises_only_ValueError fn bnds npop ngen f c sd verb g :
  match (DiffEvol_init fn bnds npop ngen f c sd verb g).1 with
  | Ret _ | Raise ValueError => True
  | _ => False
  end.
Proof.
  destruct (Z.ltb_spec npop 0) as [Hn|Hn].
  { unfold DiffEvol_init. destruct (Z.ltb_spec npop 0); [|lia]. exact I. }
  destruct (decide (0 <= sd < 2 ^ 32)%Z) as [Hs|Hs].
  { destruct (DiffEvol_init_Ret fn bnds npop ngen f c sd verb g Hn Hs)
      as (u & g' & _ & _ & _ & ->). exact I. }
  unfold DiffEvol_init. destruct (Z.ltb_spec npop 0); [lia|].
  unfold np_random_seed.
  destruct (Z.leb_spec 0 sd); destruct (Z.ltb_spec sd (2 ^ 32));
    simpl; try exact I. lia.
Qed.

(** C3, as the code has it.  On the store of an engine that was constructed
    and not run, [minidx] is [None] and neither query fails: the index
    [None] adds an axis, so [get_fitness] returns the zero fitness vector
    and [get_best_fit] the whole population, each under one more axis. *)
Theorem queries_before_run (fn : list T -> T) (bnds : list (T * T))
    (npop ngen : Z) (f c : T) (sd : Z) (verb : bool) (g : rstate)
    (e : DiffEvol T) (g' : rstate) :
  DiffEvol_init fn bnds npop ngen f c sd verb g = (Ret e, g') ->
  minidx (result e) = None /\
  get_fitness (result e) = Ret (Array2 [replicate (Z.to_nat npop) fzero]) /\
  get_best_fit (result e) = Ret (Array3 [population (result e)]).
Proof.
  intros E. apply DiffEvol_init_inv in E as (_ & _ & u & _ & _ & _ & ->).
  split; [reflexivity|]. split; reflexivity.
Qed.

End Construction.

(** ** The initial population in exact arithmetic *)

Section Exact.
Context {RS : RandomState Q}.

Lemma affine_in_interval (lo hi s : Q) :
  (lo < hi)%Q -> (0 <= s)%Q -> (s < 1)%Q ->
  (lo <= lo + s * (hi - lo) /\ lo + s * (hi - lo) < hi)%Q.
Proof.
  intros Hlh Hs0 Hs1.
  assert (Hw : (0 < hi - lo)%Q) by lra.
  assert (H0 : (0 <= s * (hi - lo))%Q).
  { apply Qmult_le_0_compat; lra. }
  assert (H1 : (s * (hi - lo) < 1 * (hi - lo))%Q).
  { apply Qmult_lt_compat_r; assumption. }
  split; lra.
Qed.

Lemma exact_initial_within_bounds fn (bnds : list (Q * Q)) npop ngen f c sd
    verb g e g' :
  unit_samples -> ordered_bounds bnds ->
  DiffEvol_init fn bnds npop ngen f c sd verb g = (Ret e, g') ->
  within_bounds bnds (population (result e)).
Proof.
  intros Hu Hb E i j x lo hi Hx Hj.
  pose proof E as E0.
  apply DiffEvol_init_inv in E0 as (Hn & Hs & u0 & _ & Lu0 & Fu0 & He).
  assert (Hi : i < Z.to_nat npop).
  { unfold entry in Hx.
    destruct (population (result e) !! i) as [row|] eqn:Hrow; [|discriminate].
    apply lookup_lt_Some in Hrow.
    pose proof (built_well_shaped fn bnds npop ngen f c sd verb u0 Lu0 Fu0)
      as (W & _ & _).
    rewrite <- He in W. simpl in W. rewrite He in W at 2. simpl in W. lia. }
  destruct (initial_entry_formula _ _ _ _ _ _ _ _ _ _ _ E)
    as (u & Eu & Hf).
  destruct (Hf i j lo hi Hi Hj) as (s & Hsu & Hxe).
  rewrite Hx in Hxe. injection Hxe as ->.
  assert (Hs01 : (0 <= s /\ s < 1)%Q).
  { apply (random2_Forall (fun s => (0 <= s /\ s < 1)%Q)) in Eu; [|exact Hu].
    unfold entry in Hsu. destruct (u !! i) as [row|] eqn:Hrow; [|discriminate].
    rewrite Forall_lookup in Eu. specialize (Eu i row Hrow).
    rewrite Forall_lookup in Eu. exact (Eu j s Hsu). }
  assert (Hlh : (lo < hi)%Q).
  { apply Hb. eapply list_elem_of_lookup_2. exact Hj. }
  destruct (affine_in_interval lo hi s Hlh) as [A B]; try tauto.
  simpl. split.
  - apply Qle_bool_iff. exact A.
  - apply negb_true_iff. apply not_true_is_false. intros H.
    apply Qle_bool_iff in H. lra.
Qed.

End Exact.

(** ** One generation *)

Section Generation.
Context {T : Type} {AT : Arith T} {RS : RandomState T}.

Lemma touches_only_refl e i r r' :
  well_shaped e r -> r' = r -> touches_only e i r r'.
Proof. intros W ->. split; [exact W|]. split; [reflexivity | now left]. Qed.

Lemma at_rng_res {A} (m : prog rstate A) h o h1 :
  at_rng m h = (o, h1) -> res h1 = res h.
Proof.
  unfold at_rng. destruct (m (np_random h)). now intros [= <- <-].
Qed.

Lemma at_rng_Ret {A} (m : prog rstate A) h a h1 :
  at_rng m h = (Ret a, h1) -> m (np_random h) = (Ret a, np_random h1).
Proof.
  unfold at_rng. destruct (m (np_random h)). now intros [= <- <-].
Qed.

Lemma get_row_inv i h o h1 :
  get_row i h = (o, h1) ->
  h1 = h /\ match o with
            | Ret x => population (res h) !! i = Some x
            | Raise _ => population (res h) !! i = None
            | Timeout => False
            end.
Proof.
  unfold get_row, index, pop. prog_unfold.
  destruct (population (res h) !! i); intros [= <- <-]; auto.
Qed.

Lemma get_fit_inv i h o h1 :
  get_fit i h = (o, h1) ->
  h1 = h /\ match o with
            | Ret x => fitness (res h) !! i = Some x
            | Raise _ => fitness (res h) !! i = None
            | Timeout => False
            end.
Proof.
  unfold get_fit, index. prog_unfold.
  destruct (fitness (res h) !! i); intros [= <- <-]; auto.
Qed.

Lemma well_shaped_row (e : DiffEvol T) (r : DiffEvolResult T) i (x : list T) :
  well_shaped e r -> population r !! i = Some x -> length x = n_parm e.
Proof.
  intros (_ & _ & Fa) Hx. rewrite Forall_lookup in Fa. exact (Fa i x Hx).
Qed.

Lemma mutant_length f (a b c : list T) n :
  length a = n -> length b = n -> length c = n ->
  length (mutant f a b c) = n.
Proof.
  intros. unfold mutant, vadd, vscale, vsub.
  rewrite length_zip_with, length_fmap, length_zip_with. lia.
Qed.

(** Split the program at its first statement, by outcome. *)
Ltac first_statement E :=
  match goal with
  | |- context [mbind ?k ?m ?h] =>
      destruct (m h) as [[?|?|] ?] eqn:E;
      [ erewrite (bind_Ret m k h) by exact E
      | erewrite (bind_Raise m k h) by exact E
      | erewrite (bind_Timeout m k h) by exact E ]
  end.

Lemma at_rng_run {A} (m : prog rstate A) h a g' :
  m (np_random h) = (Ret a, g') ->
  at_rng m h = (Ret a, {| np_random := g'; res := res h; stdout := stdout h |}).
Proof. unfold at_rng. now intros ->. Qed.

Lemma get_row_Some i h (x : list T) :
  population (res h) !! i = Some x -> get_row i h = (Ret x, h).
Proof. unfold get_row, index, pop. prog_unfold. now intros ->. Qed.

(** C10 (forced crossing).  Take at least one parameter, a mutant [v] of
    [n_parm] entries and a target row [x = pop[i]] of [n_parm] entries.  The
    crossover returns a trial [u] of [n_parm] entries and leaves the store
    as it is.  [u] is built from the [n_parm] draws [rs] of the stream and
    the index [ri] drawn after them: at [ri] it holds [v]'s value whatever
    the mask says, and at every other index [k] it holds [v]'s value when
    the draw [rs[k] <= C] and [x]'s value otherwise.  So a component of
    every trial comes from [v]. *)
Theorem crossover_forced (e : DiffEvol T) (i : nat) (v x : list T) (h : heap) :
  0 < n_parm e -> length v = n_parm e ->
  population (res h) !! i = Some x -> length x = n_parm e ->
  exists u h' rs g1 ri,
    crossover e i v h = (Ret u, h') /\
    res h' = res h /\
    random (n_parm e) (np_random h) = (Ret rs, g1) /\
    randint (Z.of_nat (n_parm e)) g1 = (Ret ri, np_random h') /\
    length u = n_parm e /\
    ri < n_parm e /\
    is_Some (v !! ri) /\
    u !! ri = v !! ri /\
    forall k s, k <> ri -> rs !! k = Some s ->
      u !! k = if fleb s (C e) then v !! k else x !! k.
Proof.
  intros Hn Hv Hx Lx.
  destruct (random_total (n_parm e) (np_random h)) as (rs & g1 & Ers & Lrs).
  destruct (randint_total (Z.of_nat (n_parm e)) g1) as (ri & g2 & Eri & Hri & _);
    [lia|].
  rewrite Nat2Z.id in Hri.
  destruct (lookup_lt_is_Some_2 v ri) as [vri Hvri]; [lia|].
  set (mask := (fun s => fleb s (C e)) <$> rs).
  assert (Lm : length mask = n_parm e) by (unfold mask; now rewrite length_fmap).
  assert (Lu : length (np_where mask v x) = n_parm e)
    by now apply np_where_length.
  exists (<[ri:=vri]> (np_where mask v x)),
    {| np_random := g2; res := res h; stdout := stdout h |}, rs, g1, ri.
  split.
  { unfold crossover.
    erewrite bind_Ret by (apply at_rng_run; exact Ers).
    fold mask. erewrite bind_Ret by (apply get_row_Some; exact Hx).
    erewrite bind_Ret by (apply at_rng_run; exact Eri).
    unfold index. rewrite Hvri. prog_unfold.
    destruct (decide (ri < length (np_where mask v x))); [reflexivity | lia]. }
  split; [reflexivity|]. split; [exact Ers|]. split; [exact Eri|].
  split; [now rewrite length_insert|].
  split; [exact Hri|]. split; [eauto|].
  split; [rewrite Hvri; apply list_lookup_insert_eq; lia|].
  intros k s Hk Hs. rewrite list_lookup_insert_ne by auto.
  apply np_where_lookup; try lia.
  unfold mask. now rewrite list_lookup_fmap, Hs.
Qed.

(** Without parameters there is no trial: [randint(0)] raises. *)
Lemma crossover_no_parameters (e : DiffEvol T) i (v x : list T) h :
  n_parm e = 0 -> population (res h) !! i = Some x ->
  (crossover e i v h).1 = Raise ValueError.
Proof.
  intros Hn Hx. unfold crossover. rewrite Hn.
  erewrite bind_Ret by (apply at_rng_run; reflexivity).
  erewrite bind_Ret by (apply get_row_Some; exact Hx).
  reflexivity.
Qed.

(** The crossover reads the store and draws; it writes nothing to it. *)
Lemma crossover_res (e : DiffEvol T) i (v : list T) h :
  res (crossover e i v h).2 = res h.
Proof.
  unfold crossover.
  first_statement E1; apply at_rng_res in E1; [|simpl; congruence..].
  first_statement E2; apply get_row_inv in E2 as [-> Hx]; [|simpl; congruence..].
  first_statement E3; apply at_rng_res in E3; [|simpl; congruence..].
  unfold index. destruct (v !! _); prog_unfold; [|simpl; congruence].
  destruct (decide _); simpl; congruence.
Qed.

Lemma crossover_Ret_length (e : DiffEvol T) i (v : list T) h u h' :
  well_shaped e (res h) -> length v = n_parm e ->
  crossover e i v h = (Ret u, h') -> length u = n_parm e.
Proof.
  intros W Hv E. unfold crossover in E.
  apply bind_Ret_inv in E as (rs & h1 & E1 & E).
  apply bind_Ret_inv in E as (x & h2 & E2 & E).
  apply bind_Ret_inv in E as (ri & h3 & E3 & E).
  apply bind_Ret_inv in E as (vri & h4 & E4 & E).
  pose proof (at_rng_res _ _ _ _ E1) as R1.
  apply at_rng_Ret in E1.
  destruct (random_total (n_parm e) (np_random h)) as (rs' & g1' & Ers' & Lrs).
  rewrite E1 in Ers'. injection Ers' as <- _.
  apply get_row_inv in E2 as [-> Hx]. rewrite R1 in Hx.
  destruct (decide _) in E; prog_unfold; [|discriminate].
  injection E as <- _. rewrite length_insert.
  apply np_where_length; auto.
  - now rewrite length_fmap.
  - eapply well_shaped_row; eauto.
Qed.

(** The selection replaces row and fitness of slot [i] together, by a
    strictly better trial, or leaves the store as it is. *)
Lemma selection_touches (e : DiffEvol T) i (u : list T) h :
  well_shaped e (res h) -> length u = n_parm e ->
  touches_only e i (res h) (res (selection e i u h).2).
Proof.
  intros W Lu. pose proof W as (Lp & Lf & Fa). unfold selection.
  destruct (get_fit i h) as [[fi|x|] h1] eqn:E; apply get_fit_inv in E as [-> Hfi];
    [|erewrite bind_Raise by (unfold get_fit, index; prog_unfold; now rewrite Hfi);
      now apply touches_only_refl|contradiction].
  erewrite bind_Ret
    by (unfold get_fit, index; prog_unfold; now rewrite Hfi).
  destruct (fltb (minfun e u) fi) eqn:Hlt; [|now apply touches_only_refl].
  assert (Hi : i < length (fitness (res h))) by (eapply lookup_lt_Some; eauto).
  unfold set_row, set_fit, set_res, pop, fit. prog_unfold. simpl.
  destruct (decide (i < length (population (res h)))); [|lia]. simpl.
  destruct (decide (i < length (fitness (res h)))); [|lia]. simpl.
  split; [|split].
  - unfold well_shaped. simpl. rewrite !length_insert.
    split; [exact Lp|]. split; [exact Lf|]. now apply Forall_insert.
  - intros k Hk. unfold slot. simpl.
    now rewrite !list_lookup_insert_ne by auto.
  - right. exists u, fi. unfold slot. simpl.
    rewrite !list_lookup_insert_eq by lia. auto.
Qed.

(** Only the selection writes to the store: one pass of the inner loop
    touches slot [i] alone. *)
Lemma step_touches fuel (e : DiffEvol T) i h :
  well_shaped e (res h) ->
  touches_only e i (res h) (res (step fuel e i h).2).
Proof.
  intros W. unfold step.
  first_statement E1; apply at_rng_res in E1;
    [|apply touches_only_refl; [assumption | simpl; congruence]..].
  destruct a as [[t0 t1] t2].
  first_statement E2; apply get_row_inv in E2 as [-> Ha];
    [|apply touches_only_refl; [assumption | simpl; congruence]..].
  first_statement E3; apply get_row_inv in E3 as [-> Hb];
    [|apply touches_only_refl; [assumption | simpl; congruence]..].
  first_statement E4; apply get_row_inv in E4 as [-> Hc];
    [|apply touches_only_refl; [assumption | simpl; congruence]..].
  rewrite E1 in Ha, Hb, Hc.
  match goal with
  | |- context [mutant (F e) ?x ?y ?z] =>
      assert (Lv : length (mutant (F e) x y z) = n_parm e)
        by (apply mutant_length; eapply well_shaped_row; eauto);
      set (v := mutant (F e) x y z) in *
  end.
  first_statement E5;
    match type of E5 with
    | crossover _ _ _ ?hh = _ => pose proof (crossover_res e i v hh) as R5
    end;
    rewrite E5 in R5; simpl in R5;
    [|apply touches_only_refl; [assumption | simpl; congruence]..].
  apply crossover_Ret_length in E5; [|now rewrite E1|exact Lv].
  rewrite <- E1, <- R5.
  apply selection_touches; [now rewrite R5, E1 | exact E5].
Qed.

Lemma slot_trans_kept fn (r0 r1 r2 : DiffEvolResult T) k :
  slot r1 k = slot r0 k -> kept_or_improved fn r1 r2 k ->
  kept_or_improved fn r0 r2 k.
Proof.
  intros H01 [H|(u & old & Hs & Ho & Hlt)].
  - left. congruence.
  - right. exists u, old. split; [exact Hs|]. split; [|exact Hlt].
    unfold slot in H01. congruence.
Qed.

Lemma kept_slot_trans fn (r0 r1 r2 : DiffEvolResult T) k :
  kept_or_improved fn r0 r1 k -> slot r2 k = slot r1 k ->
  kept_or_improved fn r0 r2 k.
Proof.
  intros [H|(u & old & Hs & Ho & Hlt)] H12.
  - left. congruence.
  - right. exists u, old. split; [congruence|]. auto.
Qed.

(** A loop of passes over distinct targets: each slot is written by its own
    pass only, so it is compared with its fitness at the loop's start. *)
Lemma for_in_step_touches fuel (e : DiffEvol T) (xs : list nat) h :
  NoDup xs -> well_shaped e (res h) ->
  well_shaped e (res (for_in xs (step fuel e) h).2) /\
  (forall k, k ∉ xs ->
     slot (res (for_in xs (step fuel e) h).2) k = slot (res h) k) /\
  (forall k, k ∈ xs ->
     kept_or_improved (minfun e) (res h) (res (for_in xs (step fuel e) h).2) k).
Proof.
  intros ND. revert h. induction ND as [|x xs Hx ND IH]; intros h W; simpl.
  - split; [exact W|]. split; [reflexivity|]. intros k Hk. inversion Hk.
  - pose proof (step_touches fuel e x h W) as (W1 & O1 & K1).
    prog_unfold. destruct (step fuel e x h) as [[[]|y|] h1] eqn:E; simpl in *.
    + destruct (IH h1 W1) as (W2 & O2 & K2).
      split; [exact W2|]. split.
      * intros k Hk. rewrite not_elem_of_cons in Hk. destruct Hk as [Hkx Hkxs].
        rewrite O2 by exact Hkxs. now apply O1.
      * intros k Hk. apply elem_of_cons in Hk as [->|Hk].
        -- eapply kept_slot_trans; [exact K1 | now apply O2].
        -- eapply slot_trans_kept; [|now apply K2].
           apply O1. intros ->. contradiction.
    + split; [exact W1|]. split.
      * intros k Hk. rewrite not_elem_of_cons in Hk. now apply O1.
      * intros k Hk. destruct (decide (k = x)) as [->|Hkx]; [exact K1|].
        left. now apply O1.
    + split; [exact W1|]. split.
      * intros k Hk. rewrite not_elem_of_cons in Hk. now apply O1.
      * intros k Hk. destruct (decide (k = x)) as [->|Hkx]; [exact K1|].
        left. now apply O1.
Qed.

Lemma report_res (e : DiffEvol T) j h : res (report e j h).2 = res h.
Proof.
  unfold report. destruct (verbose e); [|reflexivity].
  destruct (rank e); [|reflexivity].
  unfold amin, argmin, index. prog_unfold.
  destruct (fit (res h)) as [|x xs]; [reflexivity|].
  destruct ((x :: xs) !! _); reflexivity.
Qed.

(** A generation leaves a store of the engine's shape as one: by
    [built_well_shaped] and [evaluate_all_Ret] every generation of a run
    starts from such a store. *)
Lemma generation_well_shaped fuel (e : DiffEvol T) j h :
  well_shaped e (res h) -> well_shaped e (res (generation fuel e j h).2).
Proof.
  intros W. unfold generation, sweep.
  destruct (for_in_step_touches fuel e (xrange (n_pop e)) h) as (W1 & _ & _);
    [apply NoDup_seq | exact W |].
  prog_unfold.
  destruct (for_in (xrange (n_pop e)) (step fuel e) h) as [[[]|y|] h1];
    simpl in *; try exact W1.
  now rewrite report_res.
Qed.

(** C7 (no slot regresses).  Take a store of the engine's shape and run one
    generation on it, up to wherever it gets.  Then for every slot [i],
    either row and fitness are both what they were, or the row is a trial
    vector [u], the fitness is the objective value of [u], and that value is
    strictly lower than the fitness the slot had before the generation.  So
    the fitness of a slot after a generation is less than or equal to its
    fitness before, and row and fitness change together or not at all. *)
Theorem generation_never_regresses (fuel : nat) (e : DiffEvol T) (j : nat)
    (h : heap) (i : nat) :
  well_shaped e (res h) ->
  (population (res (generation fuel e j h).2) !! i = population (res h) !! i /\
   fitness (res (generation fuel e j h).2) !! i = fitness (res h) !! i) \/
  (exists u old,
     population (res (generation fuel e j h).2) !! i = Some u /\
     fitness (res (generation fuel e j h).2) !! i = Some (minfun e u) /\
     fitness (res h) !! i = Some old /\
     fltb (minfun e u) old = true).
Proof.
  intros W.
  assert (K : kept_or_improved (minfun e) (res h)
                (res (generation fuel e j h).2) i).
  { unfold generation, sweep.
    destruct (for_in_step_touches fuel e (xrange (n_pop e)) h) as (W1 & O1 & K1);
      [apply NoDup_seq | exact W |].
    assert (K0 : kept_or_improved (minfun e) (res h)
              (res (for_in (xrange (n_pop e)) (step fuel e) h).2) i).
    { destruct (decide (i ∈ xrange (n_pop e))); [now apply K1|].
      left. now apply O1. }
    prog_unfold.
    destruct (for_in (xrange (n_pop e)) (step fuel e) h) as [[[]|y|] h1];
      simpl in *; try exact K0.
    now rewrite report_res. }
  destruct K as [K|(u & old & Ks & Ho & Hlt)].
  - left. unfold slot in K. now injection K.
  - right. exists u, old. unfold slot in Ks. injection Ks as Hp Hf. auto.
Qed.

End Generation.

(** ** The order of a run *)

Section Order.
Context {T : Type} {AT : Arith T} {RS : RandomState T}.

Lemma bind_ext {S A B} (m : prog S A) (k k' : A -> prog S B) s :
  (forall a s1, k a s1 = k' a s1) -> (m ≫= k) s = (m ≫= k') s.
Proof.
  intros H. prog_unfold. destruct (m s) as [[a| |] s1]; auto.
Qed.

Lemma bind_ext_l {S A B} (m m' : prog S A) (k : A -> prog S B) s :
  m s = m' s -> (m ≫= k) s = (m' ≫= k) s.
Proof. intros H. prog_unfold. now rewrite H. Qed.

Lemma bind_Timeout_fst {S A B} (m : prog S A) (k : A -> prog S B) s :
  (m s).1 = Timeout -> ((m ≫= k) s).1 = Timeout.
Proof.
  prog_unfold. destruct (m s) as [[a| |] s1]; simpl; intros; congruence.
Qed.

Lemma bind_not_returns {S A B} (m : prog S A) (k : A -> prog S B) s :
  ~ returns (m s).1 -> ~ returns ((m ≫= k) s).1.
Proof.
  prog_unfold. destruct (m s) as [[a| |] s1]; simpl; tauto.
Qed.

Lemma for_in_Ret {S A} (I : S -> Prop) (xs : list A)
    (body : A -> prog S unit) s :
  (forall x s0, x ∈ xs -> I s0 -> exists s1, body x s0 = (Ret tt, s1) /\ I s1) ->
  I s -> exists s', for_in xs body s = (Ret tt, s') /\ I s'.
Proof.
  revert s. induction xs as [|x xs IH]; intros s Hb Hs; simpl.
  - exists s. split; [reflexivity | exact Hs].
  - destruct (Hb x s (list_elem_of_here _ _) Hs) as (s1 & E1 & I1).
    erewrite bind_Ret by exact E1. apply IH; [|exact I1].
    intros y s0 Hy. apply Hb. now apply list_elem_of_further.
Qed.

Lemma evaluate_from_loop (e : DiffEvol T) count i h :
  for_in (seq i count) (evaluate e) h = reference_evaluate_from e i count h.
Proof.
  revert i h. induction count as [|c IH]; intros i h; simpl; [reflexivity|].
  apply bind_ext. intros _ s1. apply IH.
Qed.

Lemma sweep_from_loop fuel (e : DiffEvol T) count i h :
  for_in (seq i count) (step fuel e) h = reference_sweep_from fuel e i count h.
Proof.
  revert i h. induction count as [|c IH]; intros i h; simpl; [reflexivity|].
  apply bind_ext. intros _ s1. apply IH.
Qed.

Lemma generations_from_loop fuel (e : DiffEvol T) count j h :
  for_in (seq j count) (generation fuel e) h =
  reference_generations_from fuel e j count h.
Proof.
  revert j h. induction count as [|c IH]; intros j h; simpl; [reflexivity|].
  unfold generation in *. rewrite bind_assoc.
  etransitivity.
  - apply bind_ext_l. unfold sweep, xrange. apply sweep_from_loop.
  - apply bind_ext. intros _ s1. apply bind_ext. intros _ s2. apply IH.
Qed.

Lemma call_is_reference_run fuel (e : DiffEvol T) h :
  DiffEvol_call fuel e h = reference_run fuel e h.
Proof.
  unfold DiffEvol_call, reference_run, xrange.
  etransitivity.
  - apply bind_ext_l. apply evaluate_from_loop.
  - apply bind_ext. intros _ s1. apply bind_ext_l. apply generations_from_loop.
Qed.

(** The initial evaluation goes through on a store of the engine's shape. *)
Lemma evaluate_Ret (e : DiffEvol T) i h :
  well_shaped e (res h) -> i < Z.to_nat (n_pop e) ->
  exists h', evaluate e i h = (Ret tt, h') /\ well_shaped e (res h').
Proof.
  intros (Lp & Lf & Fa) Hi. unfold evaluate.
  destruct (lookup_lt_is_Some_2 (population (res h)) i) as [x Hx]; [lia|].
  unfold get_row, set_fit, set_res, index, pop, fit. prog_unfold.
  rewrite Hx. simpl.
  destruct (decide (i < length (fitness (res h)))); [|lia].
  eexists. split; [reflexivity|]. unfold well_shaped. simpl.
  rewrite length_insert. auto.
Qed.

Lemma evaluate_all_Ret (e : DiffEvol T) h :
  well_shaped e (res h) ->
  exists h', for_in (xrange (n_pop e)) (evaluate e) h = (Ret tt, h') /\
             well_shaped e (res h').
Proof.
  intros W. apply (for_in_Ret (fun h0 => well_shaped e (res h0))); [|exact W].
  intros i h0 Hi W0. apply evaluate_Ret; [exact W0|].
  unfold xrange in Hi. apply elem_of_seq in Hi. lia.
Qed.

Lemma xrange_cons (n : Z) :
  (1 <= n)%Z -> xrange n = 0 :: seq 1 (Z.to_nat n - 1).
Proof.
  intros Hn. unfold xrange.
  destruct (Z.to_nat n) as [|m] eqn:E; [lia|].
  simpl. now rewrite Nat.sub_0_r.
Qed.

(** A sweep over one to three individuals stops in the first pass. *)
Lemma sweep_starved fuel (e : DiffEvol T) h :
  (1 <= n_pop e <= 3)%Z -> (sweep fuel e h).1 = Timeout.
Proof.
  intros Hn. unfold sweep. rewrite xrange_cons by lia. simpl.
  apply bind_Timeout_fst. unfold step. apply bind_Timeout_fst.
  pose proof (select_donors_starved fuel (n_pop e) 0 (np_random h)) as H.
  unfold at_rng. destruct (select_donors fuel (n_pop e) 0 (np_random h)).
  simpl in *. apply H; lia.
Qed.

(** C4, as the code has it.  Construction with one to three individuals
    succeeds, and when at least one generation is asked for the call never
    returns: whatever the stream and however many iterations the loops are
    given, it is still redrawing in the first pass of the first sweep. *)
Theorem starved_run_never_ends (fn : list T -> T) (bnds : list (T * T))
    (npop ngen : Z) (f c : T) (sd : Z) (verb : bool) (g : rstate) :
  (1 <= npop <= 3)%Z -> (1 <= ngen)%Z -> (0 <= sd < 2 ^ 32)%Z ->
  exists e g',
    DiffEvol_init fn bnds npop ngen f c sd verb g = (Ret e, g') /\
    forall fuel, (DiffEvol_call fuel e (enter e g')).1 = Timeout.
Proof.
  intros Hn Hg Hs.
  destruct (DiffEvol_init_Ret fn bnds npop ngen f c sd verb g) as
    (u & g' & Eu & Lu & Fu & E); [lia | exact Hs |].
  exists (built fn bnds npop ngen f c sd verb u), g'.
  split; [exact E|]. intros fuel.
  set (e := built fn bnds npop ngen f c sd verb u).
  unfold DiffEvol_call.
  destruct (evaluate_all_Ret e (enter e g')) as (h1 & E1 & W1).
  { now apply built_well_shaped. }
  erewrite bind_Ret by exact E1.
  apply bind_Timeout_fst.
  rewrite xrange_cons by exact Hg. simpl.
  apply bind_Timeout_fst. unfold generation. apply bind_Timeout_fst.
  apply sweep_starved. exact Hn.
Qed.

(** C2, against the code.  An engine constructed with [verbose=True] and at
    least one generation never returns from the call: at the end of the
    first generation the progress line reads [self.rank], which no method
    has assigned. *)
Theorem verbose_run_never_returns (fn : list T -> T) (bnds : list (T * T))
    (npop ngen : Z) (f c : T) (sd : Z) (g : rstate) (e : DiffEvol T)
    (g' : rstate) (fuel : nat) (h : heap) :
  DiffEvol_init fn bnds npop ngen f c sd true g = (Ret e, g') ->
  (1 <= ngen)%Z ->
  ~ returns (DiffEvol_call fuel e h).1.
Proof.
  intros E Hg. apply DiffEvol_init_inv in E as (_ & _ & u & _ & _ & _ & ->).
  unfold DiffEvol_call. apply bind_never_returns. intros _ h1.
  apply bind_not_returns. simpl n_gen. rewrite xrange_cons by exact Hg. simpl.
  apply bind_not_returns. unfold generation.
  apply bind_never_returns. intros _ h2. simpl. tauto.
Qed.

Lemma init_ignores_generator fn bnds npop ngen (f c : T) sd verb g1 g2 :
  match DiffEvol_init fn bnds npop ngen f c sd verb g1 with
  | (Ret e, g') => DiffEvol_init fn bnds npop ngen f c sd verb g2 = (Ret e, g')
  | (o, _) => (DiffEvol_init fn bnds npop ngen f c sd verb g2).1 = o
  end.
Proof.
  destruct (Z.ltb_spec npop 0) as [Hn|Hn].
  { unfold DiffEvol_init. destruct (Z.ltb_spec npop 0); [|lia]. reflexivity. }
  destruct (decide (0 <= sd < 2 ^ 32)%Z) as [Hs|Hs].
  { destruct (DiffEvol_init_Ret fn bnds npop ngen f c sd verb g1 Hn Hs)
      as (u & g' & Eu & _ & _ & ->).
    destruct (DiffEvol_init_Ret fn bnds npop ngen f c sd verb g2 Hn Hs)
      as (u2 & g2' & Eu2 & _ & _ & ->).
    rewrite Eu in Eu2. now injection Eu2 as <- <-. }
  unfold DiffEvol_init. destruct (Z.ltb_spec npop 0); [lia|].
  unfold np_random_seed.
  destruct (Z.leb_spec 0 sd); destruct (Z.ltb_spec sd (2 ^ 32));
    simpl; try reflexivity. lia.
Qed.

(** C5 (determinism).  Construction reseeds the generator, so a
    construct-and-run execution does not depend on the state the generator
    was in: from any two states, the same arguments give the same outcome,
    the same final population and fitness vector, and leave the same
    generator and console. *)
Theorem run_deterministic (fn : list T -> T) (bnds : list (T * T))
    (npop ngen : Z) (f c : T) (sd : Z) (verb : bool) (fuel : nat)
    (g1 g2 : rstate) :
  construct_and_run fn bnds npop ngen f c sd verb fuel g1 =
  construct_and_run fn bnds npop ngen f c sd verb fuel g2.
Proof.
  unfold construct_and_run.
  pose proof (init_ignores_generator fn bnds npop ngen f c sd verb g1 g2) as H.
  destruct (DiffEvol_init fn bnds npop ngen f c sd verb g1) as [[e|x|] g'].
  - now rewrite H.
  - destruct (DiffEvol_init fn bnds npop ngen f c sd verb g2) as [o g2'].
    simpl in H. now subst o.
  - destruct (DiffEvol_init fn bnds npop ngen f c sd verb g2) as [o g2'].
    simpl in H. now subst o.
Qed.

End Order.

(** ** The tape generator keeps every index coming *)

Section Tape.
Context {T : Type} (of_raw : N -> T) (table : Z -> list N).

Lemma after_draws_counter m k c :
  @after_draws T (tape_rng of_raw table) m k {| script := []; counter := c |} =
  {| script := []; counter := c + N.of_nat k |}.
Proof.
  revert c. induction k as [|k IH]; intros c; simpl.
  - now rewrite N.add_0_r.
  - unfold tape_interval, next_raw. simpl. rewrite IH. f_equal. lia.
Qed.

Lemma draw_at_counter m j c :
  @draw_at T (tape_rng of_raw table) m j {| script := []; counter := c |} =
  (N.to_nat c + j) mod S m.
Proof.
  unfold draw_at. rewrite after_draws_counter. cbn [rk_interval tape_rng].
  unfold tape_interval, next_raw. cbn [script counter fst].
  replace (N.to_nat (c + N.of_nat j)) with (N.to_nat c + j) by lia.
  reflexivity.
Qed.

Lemma counter_tape_recurrent m c :
  @recurrent T (tape_rng of_raw table) m {| script := []; counter := c |}.
Proof.
  intros k v Hv.
  pose proof (Nat.div_mod_eq (N.to_nat c + k) (S m)) as Hdm.
  pose proof (Nat.mod_upper_bound (N.to_nat c + k) (S m)) as Hr.
  set (q := (N.to_nat c + k) / S m) in *.
  set (r := (N.to_nat c + k) mod S m) in *.
  destruct (le_lt_dec r v) as [Hle|Hgt].
  - exists (k + (v - r)). split; [lia|]. rewrite draw_at_counter.
    symmetry. apply (Nat.mod_unique _ _ q); nia.
  - exists (k + (v + S m - r)). split; [lia|]. rewrite draw_at_counter.
    symmetry. apply (Nat.mod_unique _ _ (S q)); nia.
Qed.

End Tape.

(** * Concrete runs *)

Lemma demo_engine_constructed :
  DiffEvol_init sum_squares [((-5)%float, 5%float)] 4 1 0.5%float 0.5%float
    1 false fresh_tape = (Ret demo_engine, fresh_tape).
Proof. vm_compute. reflexivity. Qed.

Lemma demo_heap_evaluated :
  for_in (xrange 4) (evaluate demo_engine) (enter demo_engine fresh_tape) =
  (Ret tt, demo_heap).
Proof. reflexivity. Qed.

Lemma demo_engine_well_shaped : well_shaped demo_engine (res demo_heap).
Proof.
  unfold well_shaped. simpl. split; [reflexivity|]. split; [reflexivity|].
  repeat constructor.
Qed.

(** In place: in the first sweep the pass for slot 3 draws the donors 0, 1
    and 2 and reads the row that the pass for slot 1 has just written; a
    sweep over a copy of the generation's rows ends elsewhere. *)
Lemma sweep_reads_updated_rows :
  entry (population (res (sweep 20 demo_engine demo_heap).2)) 3 0 =
    Some (-0.9375)%float /\
  entry (population (res (sweep_double_buffered 20 demo_engine demo_heap).2))
    3 0 = Some (-2.5)%float /\
  fltb (-2.5)%float (-0.9375)%float = true.
Proof. vm_compute. repeat split. Qed.

(** C6 (reference order).  The call is the reference run: all [n_pop]
    initial individuals are evaluated, slot after slot, before the first
    generation; each of the [n_gen] generations sweeps the targets from 0 to
    [n_pop - 1], each pass working on the one store the pass before it
    left.  There is no generational copy: on a concrete store the in-place
    sweep and a sweep over a copy of the rows end with different
    populations. *)
Theorem run_follows_reference_order :
  (forall (T : Type) (AT : Arith T) (RS : RandomState T) (fuel : nat)
          (e : DiffEvol T) (h : heap),
     DiffEvol_call fuel e h = reference_run fuel e h) /\
  (exists (e : DiffEvol float) (h : heap (T := float)) (x y : float),
     for_in (xrange (n_pop e)) (evaluate e) (enter e fresh_tape) = (Ret tt, h) /\
     entry (population (res (sweep 20 e h).2)) 3 0 = Some x /\
     entry (population (res (sweep_double_buffered 20 e h).2)) 3 0 = Some y /\
     fltb y x = true).
Proof.
  split.
  - intros T AT RS fuel e h. apply call_is_reference_run.
  - exists demo_engine, demo_heap, (-0.9375)%float, (-2.5)%float.
    split; [exact demo_heap_evaluated | exact sweep_reads_updated_rows].
Qed.

(** C1 fails on the code: bounds with lower above upper, three
    individuals, no generation, [F = 0] and [C = 2] are accepted, and the
    store of a run is created. *)
Lemma construction_accepts_invalid_arguments :
  exists e g',
    DiffEvol_init sum_squares [(1%float, 0%float)] 3 0 0%float 2%float 0 true
      fresh_tape = (Ret e, g') /\
    length (population (result e)) = 3 /\
    fitness (result e) = [0%float; 0%float; 0%float].
Proof.
  eexists _, _. split; [vm_compute; reflexivity|]. split; reflexivity.
Qed.

Lemma construction_unvalidated_witness :
  exists e g',
    DiffEvol_init sum_squares [(1%float, 0%float)] 3 0 0%float 2%float 0 true
      fresh_tape = (Ret e, g') /\
    well_shaped e (result e) /\
    n_pop e = 3%Z /\ n_parm e = 1 /\
    fitness (result e) = replicate 3 0%float /\
    minidx (result e) = None /\
    forall fn', exists e',
      DiffEvol_init fn' [(1%float, 0%float)] 3 0 0%float 2%float 0 true
        fresh_tape = (Ret e', g') /\
      result e' = result e.
Proof.
  refine (construction_unvalidated (RS := demo_rng) sum_squares
            [(1%float, 0%float)] 3 0 0%float 2%float 0 true fresh_tape _ _);
    lia.
Defined.

(** The failing input of C2: [DiffEvol(sum_squares, [[-5, 5]], 4, 1)()]
    with the default [verbose=True] ends in [AttributeError] after its one
    generation, the store updated and [minidx] unset. *)
Lemma verbose_run_raises_AttributeError :
  exists e g',
    DiffEvol_init sum_squares [((-5)%float, 5%float)] 4 1 0.5%float 0.5%float
      0 true fresh_tape = (Ret e, g') /\
    (DiffEvol_call 20 e (enter e g')).1 = Raise AttributeError /\
    minidx (res (DiffEvol_call 20 e (enter e g')).2) = None.
Proof.
  eexists _, _. split; [vm_compute; reflexivity|]. vm_compute. split; reflexivity.
Qed.

(** The same run with [verbose=False] returns the store with its best
    index. *)
Lemma quiet_run_returns :
  exists e g' r,
    DiffEvol_init sum_squares [((-5)%float, 5%float)] 4 1 0.5%float 0.5%float
      0 false fresh_tape = (Ret e, g') /\
    (DiffEvol_call 20 e (enter e g')).1 = Ret r /\
    minidx r = Some 1.
Proof.
  eexists _, _, _. split; [vm_compute; reflexivity|].
  split; [vm_compute; reflexivity | reflexivity].
Qed.

Lemma verbose_run_never_returns_witness :
  ~ returns (DiffEvol_call 20
               (built sum_squares [((-5)%float, 5%float)] 4 1 0.5%float
                  0.5%float 1 true
                  [[0.5%float]; [0.25%float]; [0.75%float]; [0.125%float]])
               demo_heap).1.
Proof.
  apply (verbose_run_never_returns (RS := demo_rng) sum_squares
           [((-5)%float, 5%float)] 4 1 0.5%float 0.5%float 1 fresh_tape _
           fresh_tape).
  - vm_compute. reflexivity.
  - lia.
Defined.

(** C3 fails on the code: on a store that was never run [get_fitness]
    returns the zero vector under a new axis, not an error. *)
Lemma queries_before_run_return :
  exists e g',
    DiffEvol_init sum_squares [((-5)%float, 5%float)] 4 1 0.5%float 0.5%float
      1 false fresh_tape = (Ret e, g') /\
    get_fitness (result e) =
      Ret (Array2 [[0%float; 0%float; 0%float; 0%float]]) /\
    get_best_fit (result e) =
      Ret (Array3 [[[0%float]; [(-2.5)%float]; [2.5%float]; [(-3.75)%float]]]).
Proof.
  exists demo_engine, fresh_tape.
  split; [exact demo_engine_constructed|]. split; reflexivity.
Qed.

Lemma queries_before_run_witness :
  minidx (result demo_engine) = None /\
  get_fitness (result demo_engine) =
    Ret (Array2 [replicate (Z.to_nat 4) 0%float]) /\
  get_best_fit (result demo_engine) =
    Ret (Array3 [population (result demo_engine)]).
Proof.
  refine (queries_before_run (RS := demo_rng) sum_squares
            [((-5)%float, 5%float)] 4 1 0.5%float 0.5%float 1 false
            fresh_tape demo_engine fresh_tape _).
  exact demo_engine_constructed.
Defined.

(** C4 fails on the code as stated: with three individuals and no
    generation the call returns. *)
Lemma starved_run_without_generation_returns :
  exists e g' r,
    DiffEvol_init sum_squares [((-5)%float, 5%float)] 3 0 0.5%float 0.5%float
      0 true fresh_tape = (Ret e, g') /\
    (DiffEvol_call 0 e (enter e g')).1 = Ret r /\
    minidx r = Some 2.
Proof.
  eexists _, _, _. split; [vm_compute; reflexivity|].
  split; [vm_compute; reflexivity | reflexivity].
Qed.

Lemma starved_run_never_ends_witness :
  exists e g',
    DiffEvol_init sum_squares [((-5)%float, 5%float)] 3 1 0.5%float 0.5%float
      0 true fresh_tape = (Ret e, g') /\
    forall fuel, (DiffEvol_call fuel e (enter e g')).1 = Timeout.
Proof.
  refine (starved_run_never_ends (RS := demo_rng) sum_squares
            [((-5)%float, 5%float)] 3 1 0.5%float 0.5%float 0 true
            fresh_tape _ _ _); lia.
Defined.

Lemma generation_never_regresses_witness :
  well_shaped demo_engine (res demo_heap) /\
  ((population (res (generation 20 demo_engine 0 demo_heap).2) !! 1 =
      population (res demo_heap) !! 1 /\
    fitness (res (generation 20 demo_engine 0 demo_heap).2) !! 1 =
      fitness (res demo_heap) !! 1) \/
   (exists u old,
      population (res (generation 20 demo_engine 0 demo_heap).2) !! 1 = Some u /\
      fitness (res (generation 20 demo_engine 0 demo_heap).2) !! 1 =
        Some (minfun demo_engine u) /\
      fitness (res demo_heap) !! 1 = Some old /\
      fltb (minfun demo_engine u) old = true)).
Proof.
  split; [exact demo_engine_well_shaped|].
  refine (generation_never_regresses 20 demo_engine 0 demo_heap 1 _).
  exact demo_engine_well_shaped.
Defined.

(** In that generation slot 1 is replaced: 0.625 with fitness 0.390625,
    below the 6.25 it had. *)
Lemma generation_improves_slot :
  slot (res (generation 20 demo_engine 0 demo_heap).2) 1 =
    (Some [0.625%float], Some 0.390625%float) /\
  slot (res demo_heap) 1 = (Some [(-2.5)%float], Some 6.25%float).
Proof. vm_compute. split; reflexivity. Qed.

Lemma donors_distinct_witness :
  exists fuel t0 t1 t2 g',
    (forall fuel', fuel <= fuel' ->
       select_donors (RS := demo_rng) fuel' 4 0 fresh_tape =
         (Ret (t0, t1, t2), g')) /\
    t0 <> 0 /\ t1 <> 0 /\ t2 <> 0 /\ t0 <> t1 /\ t0 <> t2 /\ t1 <> t2 /\
    t0 < Z.to_nat 4 /\ t1 < Z.to_nat 4 /\ t2 < Z.to_nat 4.
Proof.
  refine (donors_distinct (RS := demo_rng) 4 0 fresh_tape _ _ _).
  - lia.
  - simpl. lia.
  - apply counter_tape_recurrent.
Defined.

(** The donors of that first selection. *)
Lemma first_donors :
  select_donors (RS := demo_rng) 2 4 0 fresh_tape =
    (Ret (1, 2, 3), {| script := []; counter := 4 |}).
Proof. vm_compute. reflexivity. Qed.

Lemma crossover_forced_witness :
  exists u h' rs g1 ri,
    crossover demo_engine 0 [0.625%float] demo_heap = (Ret u, h') /\
    res h' = res demo_heap /\
    random (n_parm demo_engine) (np_random demo_heap) = (Ret rs, g1) /\
    randint (Z.of_nat (n_parm demo_engine)) g1 = (Ret ri, np_random h') /\
    length u = n_parm demo_engine /\
    ri < n_parm demo_engine /\
    is_Some ([0.625%float] !! ri) /\
    u !! ri = [0.625%float] !! ri /\
    forall k s, k <> ri -> rs !! k = Some s ->
      u !! k = if fleb s (C demo_engine) then [0.625%float] !! k
               else [0%float] !! k.
Proof.
  refine (crossover_forced demo_engine 0 [0.625%float] [0%float] demo_heap
            _ _ _ _).
  - simpl. lia.
  - reflexivity.
  - reflexivity.
  - reflexivity.
Defined.

(** C8 fails on the code: with the bounds (1, 2) and the largest draw of
    [random()], 1 - 2^-53, the entry [1 + u * (2 - 1)] rounds to 2.0, the
    upper bound itself. *)
Lemma initial_entry_reaches_upper_bound :
  exists e g',
    DiffEvol_init sum_squares [(1%float, 2%float)] 4 1 0.5%float 0.5%float
      2 false fresh_tape = (Ret e, g') /\
    fltb 1%float 2%float = true /\
    float_of_raw (2 ^ 53 - 1) = 0x1.fffffffffffffp-1%float /\
    entry (population (result e)) 0 0 = Some 2%float /\
    ~ within_bounds [(1%float, 2%float)] (population (result e)).
Proof.
  eexists _, _. split; [vm_compute; reflexivity|].
  split; [reflexivity|]. split; [reflexivity|]. split; [reflexivity|].
  intros H. destruct (H 0 0 2%float 1%float 2%float) as [_ Hlt];
    [reflexivity | reflexivity | vm_compute in Hlt; discriminate].
Qed.

Lemma Q_tape_unit_samples table : unit_samples (RS := Q_tape table).
Proof.
  intros g. simpl. destruct (next_raw g) as [w g']. simpl.
  pose proof (Z.mod_pos_bound (Z.of_N w) (2 ^ 53) eq_refl) as [H0 H1].
  unfold Q_of_raw, Qle, Qlt. simpl Qnum. simpl Qden.
  split; lia.
Qed.

(** C8, as the code has it.  Every entry of the initial population is
    [lower + u * (upper - lower)], computed in this order from the bound
    pair of its parameter and the draw [u] at its place of the stream.  In
    exact arithmetic, with draws of [0, 1) and lower < upper for every pair,
    each entry lies in [lower, upper). *)
Theorem initial_population_entries :
  (forall (T : Type) (AT : Arith T) (RS : RandomState T) (fn : list T -> T)
          (bnds : list (T * T)) (npop ngen : Z) (f c : T) (sd : Z)
          (verb : bool) (g : rstate) (e : DiffEvol T) (g' : rstate),
     DiffEvol_init fn bnds npop ngen f c sd verb g = (Ret e, g') ->
     exists u,
       random2 (Z.to_nat npop) (length bnds) (seed_state sd) = (Ret u, g') /\
       forall i j lo hi,
         i < Z.to_nat npop -> bnds !! j = Some (lo, hi) ->
         exists s, entry u i j = Some s /\
           entry (population (result e)) i j =
             Some (fadd lo (fmul s (fsub hi lo)))) /\
  (forall (RS : RandomState Q) (fn : list Q -> Q) (bnds : list (Q * Q))
          (npop ngen : Z) (f c : Q) (sd : Z) (verb : bool) (g : rstate)
          (e : DiffEvol Q) (g' : rstate),
     unit_samples -> ordered_bounds bnds ->
     DiffEvol_init fn bnds npop ngen f c sd verb g = (Ret e, g') ->
     within_bounds bnds (population (result e))).
Proof.
  split.
  - intros. eapply initial_entry_formula. eassumption.
  - intros. eapply exact_initial_within_bounds; eassumption.
Qed.

Lemma demo_engine_Q_constructed :
  DiffEvol_init (RS := demo_rng_Q) sum_squares [((-5)%Q, 5%Q)] 4 1
    (1 # 2)%Q (1 # 2)%Q 1 false fresh_tape = (Ret demo_engine_Q, fresh_tape).
Proof. reflexivity. Qed.

Lemma initial_population_entries_witness :
  within_bounds [((-5)%Q, 5%Q)] (population (result demo_engine_Q)).
Proof.
  refine (proj2 initial_population_entries demo_rng_Q sum_squares
            [((-5)%Q, 5%Q)] 4%Z 1%Z (1 # 2)%Q (1 # 2)%Q 1%Z false fresh_tape
            demo_engine_Q fresh_tape _ _ _).
  - apply Q_tape_unit_samples.
  - intros lo hi H. apply list_elem_of_singleton in H.
    injection H as -> ->. reflexivity.
  - exact demo_engine_Q_constructed.
Defined.

(** * Further properties of the run *)

Section Loops.
Context {S A : Type}.

(** What every pass keeps, the loop keeps, however it ends. *)
Lemma for_in_final (I : S -> Prop) (xs : list A) (body : A -> prog S unit) s :
  (forall x s0, x ∈ xs -> I s0 -> I (body x s0).2) ->
  I s -> I (for_in xs body s).2.
Proof.
  revert s. induction xs as [|x xs IH]; intros s Hb Hs; simpl.
  - exact Hs.
  - pose proof (Hb x s (list_elem_of_here _ _) Hs) as H1.
    prog_unfold. destruct (body x s) as [[[]| |] s1]; simpl in *; auto.
    apply IH; auto. intros y s0 Hy. apply Hb. now apply list_elem_of_further.
Qed.

Lemma bind_final {B D} (I : S -> Prop) (m : prog S B) (k : B -> prog S D) s :
  I (m s).2 -> (forall a s1, m s = (Ret a, s1) -> I (k a s1).2) ->
  I ((m ≫= k) s).2.
Proof.
  intros Hm Hk. prog_unfold.
  destruct (m s) as [[a| |] s1] eqn:E; simpl in *; auto.
Qed.

End Loops.

(** A counting loop whose passes all return, with a condition that moves
    along with the counter. *)
Lemma for_in_seq_Ret {S} (I : nat -> S -> Prop) (body : nat -> prog S unit)
    count k s :
  (forall j s0, k <= j < k + count -> I j s0 ->
     exists s1, body j s0 = (Ret tt, s1) /\ I (Datatypes.S j) s1) ->
  I k s ->
  exists s', for_in (seq k count) body s = (Ret tt, s') /\ I (k + count) s'.
Proof.
  revert k s. induction count as [|c IH]; intros k s Hb Hs; simpl.
  - exists s. rewrite Nat.add_0_r. auto.
  - destruct (Hb k s) as (s1 & E1 & I1); [lia | exact Hs |].
    erewrite bind_Ret by exact E1.
    destruct (IH (Datatypes.S k) s1) as (s' & E & I'); [|exact I1|].
    { intros j s0 Hj. apply Hb. lia. }
    exists s'. split; [exact E|]. now replace (k + Datatypes.S c) with (Datatypes.S k + c) by lia.
Qed.

Section Evaluation.
Context {T : Type} {AT : Arith T} {RS : RandomState T}.

(** The initial evaluation writes the objective value of every row, and
    nothing else: no row, no draw, no output. *)
Lemma evaluate_all_spec (e : DiffEvol T) h :
  well_shaped e (res h) ->
  for_in (xrange (n_pop e)) (evaluate e) h =
    (Ret tt,
     {| np_random := np_random h;
        res := {| population := population (res h);
                  fitness := minfun e <$> population (res h);
                  minidx := minidx (res h) |};
        stdout := stdout h |}).
Proof.
  intros (Lp & Lf & _).
  destruct h as [g [pop0 fit0 mi] out]. simpl in *.
  set (n := Z.to_nat (n_pop e)) in *.
  destruct (for_in_seq_Ret
    (fun j h0 =>
       np_random h0 = g /\ stdout h0 = out /\ population (res h0) = pop0 /\
       minidx (res h0) = mi /\ length (fitness (res h0)) = n /\
       forall i, i < j -> fitness (res h0) !! i = minfun e <$> (pop0 !! i))
    (evaluate e) n 0
    {| np_random := g; res := {| population := pop0; fitness := fit0;
                                 minidx := mi |}; stdout := out |})
    as (h' & E & Hg & Ho & Hp & Hm & Hl & Hf).
  - intros j h0 Hj (Hg & Ho & Hp & Hm & Hl & Hf).
    destruct (lookup_lt_is_Some_2 pop0 j) as [x Hx]; [lia|].
    unfold evaluate.
    erewrite bind_Ret by (apply get_row_Some; rewrite Hp; exact Hx).
    unfold set_fit, set_res, fit. prog_unfold.
    destruct (decide (j < length (fitness (res h0)))); [|lia].
    eexists. split; [reflexivity|]. simpl.
    repeat (split; [assumption|]). split; [now rewrite length_insert|].
    intros i Hi. destruct (decide (i = j)) as [->|Hij].
    + rewrite list_lookup_insert_eq by lia. now rewrite Hx.
    + rewrite list_lookup_insert_ne by auto. apply Hf. lia.
  - simpl. repeat (split; [reflexivity|]). split; [exact Lf|]. intros i Hi. lia.
  - unfold xrange. fold n. rewrite E. f_equal.
    destruct h' as [g' [pop' fit' mi'] out']. simpl in *. subst.
    f_equal. f_equal. apply list_eq. intros i.
    rewrite list_lookup_fmap.
    destruct (decide (i < length fit')) as [Hi|Hi].
    + apply Hf. lia.
    + rewrite !lookup_ge_None_2; [reflexivity | lia | lia].
Qed.

Lemma synced_kept fn (r r' : DiffEvolResult T) :
  synced fn r -> (forall k, kept_or_improved fn r r' k) -> synced fn r'.
Proof.
  intros Hs K i row Hrow.
  destruct (K i) as [H|(u & old & H & _ & _)]; unfold slot in H.
  - injection H as Hp Hf. rewrite Hf. apply Hs. now rewrite <- Hp.
  - injection H as Hp Hf. rewrite Hf. rewrite Hp in Hrow. now injection Hrow as ->.
Qed.

(** One sweep and one generation, slot by slot. *)
Lemma sweep_kept fuel (e : DiffEvol T) h :
  well_shaped e (res h) ->
  well_shaped e (res (sweep fuel e h).2) /\
  forall k, kept_or_improved (minfun e) (res h) (res (sweep fuel e h).2) k.
Proof.
  intros W. unfold sweep.
  destruct (for_in_step_touches fuel e (xrange (n_pop e)) h) as (W1 & O1 & K1);
    [apply NoDup_seq | exact W |].
  split; [exact W1|]. intros k.
  destruct (decide (k ∈ xrange (n_pop e))); [now apply K1|].
  left. now apply O1.
Qed.

Lemma generation_kept fuel (e : DiffEvol T) j h :
  well_shaped e (res h) ->
  well_shaped e (res (generation fuel e j h).2) /\
  forall k, kept_or_improved (minfun e) (res h) (res (generation fuel e j h).2) k.
Proof.
  intros W. destruct (sweep_kept fuel e h W) as (W1 & K1).
  unfold generation. prog_unfold.
  destruct (sweep fuel e h) as [[[]|y|] h1]; simpl in *; auto.
  rewrite report_res. auto.
Qed.

Lemma generations_shape_synced fuel (e : DiffEvol T) (js : list nat) h :
  well_shaped e (res h) -> synced (minfun e) (res h) ->
  well_shaped e (res (for_in js (generation fuel e) h).2) /\
  synced (minfun e) (res (for_in js (generation fuel e) h).2).
Proof.
  intros W Hs.
  apply (for_in_final
    (fun h0 => well_shaped e (res h0) /\ synced (minfun e) (res h0))); [|auto].
  intros j h0 _ (W0 & S0). destruct (generation_kept fuel e j h0 W0) as (W1 & K1).
  split; [exact W1|]. eapply synced_kept; eauto.
Qed.

Lemma best_index_res h :
  population (res (best_index h).2) = population (res h) /\
  fitness (res (best_index h).2) = fitness (res h).
Proof.
  unfold best_index, argmin, set_res. prog_unfold.
  destruct (fitness (res h)) eqn:E; simpl; rewrite ?E; auto.
Qed.

Lemma argmin_from_lt k (xs : list T) j m :
  j < k -> argmin_from k xs j m < k + length xs.
Proof.
  revert k j m. induction xs as [|x xs IH]; intros k j m Hj; simpl; [lia|].
  destruct (isnan m); [lia|].
  destruct (fleb m x).
  - specialize (IH (Datatypes.S k) j m). lia.
  - specialize (IH (Datatypes.S k) k x). lia.
Qed.

(** What a returned [best_index] returned. *)
Lemma best_index_Ret h r h' :
  best_index h = (Ret r, h') ->
  exists x rest,
    fitness (res h) = x :: rest /\
    r = {| population := population (res h); fitness := fitness (res h);
           minidx := Some (argmin_from 1 rest 0 x) |} /\
    res h' = r.
Proof.
  unfold best_index, argmin, set_res. prog_unfold.
  destruct (fitness (res h)) as [|x rest] eqn:E; simpl; [discriminate|].
  intros [= <- <-]. exists x, rest. simpl. auto.
Qed.

(** The store at the end of the call, whichever way it ends. *)
Lemma call_shape_synced fuel (e : DiffEvol T) h :
  well_shaped e (res h) ->
  well_shaped e (res (DiffEvol_call fuel e h).2) /\
  synced (minfun e) (res (DiffEvol_call fuel e h).2).
Proof.
  intros W. unfold DiffEvol_call.
  erewrite bind_Ret by (apply evaluate_all_spec; exact W).
  set (h1 := {| np_random := np_random h; res := _; stdout := stdout h |}).
  assert (W1 : well_shaped e (res h1)).
  { destruct W as (Lp & Lf & Fa). unfold well_shaped. simpl.
    rewrite length_fmap. auto. }
  assert (S1 : synced (minfun e) (res h1)).
  { intros i row Hrow. simpl in *. now rewrite list_lookup_fmap, Hrow. }
  apply (bind_final
    (fun h0 => well_shaped e (res h0) /\ synced (minfun e) (res h0))).
  - now apply generations_shape_synced.
  - intros [] h2 E2.
    pose proof (generations_shape_synced fuel e (xrange (n_gen e)) h1 W1 S1)
      as (W2 & S2).
    rewrite E2 in W2, S2. simpl in W2, S2.
    destruct (best_index_res h2) as (Hp & Hf).
    split.
    + unfold well_shaped. rewrite Hp, Hf. exact W2.
    + intros i row. rewrite Hp, Hf. apply S2.
Qed.

(** X1 (the fitness is never stale).  From a store of the engine's shape,
    whichever way the call ends (returned, raised, or still redrawing), at
    its end every slot of the fitness vector is the objective value of the
    row of that slot. *)
Theorem fitness_never_stale (fuel : nat) (e : DiffEvol T) (h : heap)
    (i : nat) (row : list T) :
  well_shaped e (res h) ->
  population (res (DiffEvol_call fuel e h).2) !! i = Some row ->
  fitness (res (DiffEvol_call fuel e h).2) !! i = Some (minfun e row).
Proof.
  intros W. destruct (call_shape_synced fuel e h W) as (_ & Hs). apply Hs.
Qed.

(** X4 (the arrays are never resized).  From a store of the engine's shape,
    whichever way the call ends, the store still has [n_pop] rows of
    [n_parm] entries and [n_pop] fitness values. *)
Theorem call_keeps_shape (fuel : nat) (e : DiffEvol T) (h : heap) :
  well_shaped e (res h) ->
  length (population (res (DiffEvol_call fuel e h).2)) = Z.to_nat (n_pop e) /\
  length (fitness (res (DiffEvol_call fuel e h).2)) = Z.to_nat (n_pop e) /\
  Forall (fun row => length row = n_parm e)
    (population (res (DiffEvol_call fuel e h).2)).
Proof.
  intros W. destruct (call_shape_synced fuel e h W) as (W' & _). exact W'.
Qed.

(** A call that returned ended in [best_index]. *)
Lemma call_Ret_inv fuel (e : DiffEvol T) h r h' :
  DiffEvol_call fuel e h = (Ret r, h') ->
  exists x rest,
    fitness r = x :: rest /\
    minidx r = Some (argmin_from 1 rest 0 x) /\
    res h' = r.
Proof.
  intros E. unfold DiffEvol_call in E.
  apply bind_Ret_inv in E as ([] & h1 & _ & E).
  apply bind_Ret_inv in E as ([] & h2 & _ & E).
  apply best_index_Ret in E as (x & rest & Hf & Hr & Hres).
  exists x, rest. subst r. simpl. auto.
Qed.

(** X2 (the queries after a run).  When the call returns, from a store of
    the engine's shape, the best index is set and in range;
    [get_best_fit()] returns the row at it, of [n_parm] entries, and
    [get_fitness()] returns the objective value of that very row. *)
Theorem queries_after_run (fuel : nat) (e : DiffEvol T) (h : heap)
    (r : DiffEvolResult T) (h' : heap) :
  well_shaped e (res h) ->
  DiffEvol_call fuel e h = (Ret r, h') ->
  exists k row,
    minidx r = Some k /\ k < Z.to_nat (n_pop e) /\
    length row = n_parm e /\
    get_best_fit r = Ret (Array1 row) /\
    get_fitness r = Ret (Scalar (minfun e row)).
Proof.
  intros W E.
  destruct (call_shape_synced fuel e h W) as ((Lp & Lf & Fa) & Hs).
  rewrite E in Lp, Lf, Fa, Hs. simpl in *.
  destruct (call_Ret_inv fuel e h r h' E) as (x & rest & Hf & Hm & Hres).
  rewrite Hres in Lp, Lf, Fa, Hs.
  set (k := argmin_from 1 rest 0 x) in *.
  assert (Hk : k < length (fitness r)).
  { rewrite Hf. simpl.
    pose proof (argmin_from_lt 1 rest 0 x). unfold k. lia. }
  destruct (lookup_lt_is_Some_2 (population r) k) as [row Hrow]; [lia|].
  exists k, row.
  split; [exact Hm|]. split; [lia|].
  split; [rewrite Forall_lookup in Fa; exact (Fa k row Hrow)|].
  unfold get_best_fit, get_fitness. rewrite Hm, Hrow, (Hs k row Hrow). auto.
Qed.

End Evaluation.

(** ** The best index *)

Section BestIndex.
Context {T : Type} {AT : Arith T} {RS : RandomState T}.



End BestIndex.

(** ** The run as a whole *)

Section WholeRun.
Context {T : Type} {AT : Arith T} {RS : RandomState T}.

Lemma kept_or_improved_trans fn (r0 r1 r2 : DiffEvolResult T) k :
  transitive_ltb ->
  kept_or_improved fn r0 r1 k -> kept_or_improved fn r1 r2 k ->
  kept_or_improved fn r0 r2 k.
Proof.
  intros Tr K01 K12. destruct K01 as [H01|(u1 & old1 & Hs1 & Ho1 & Hlt1)].
  - eapply slot_trans_kept; eauto.
  - destruct K12 as [H12|(u2 & old2 & Hs2 & Ho2 & Hlt2)].
    + right. exists u1, old1. split; [congruence | auto].
    + right. exists u2, old1. split; [exact Hs2|]. split; [exact Ho1|].
      unfold slot in Hs1. injection Hs1 as _ Hf1. rewrite Hf1 in Ho2.
      injection Ho2 as <-. eapply Tr; eauto.
Qed.

Lemma generations_kept fuel (e : DiffEvol T) (js : list nat) h :
  transitive_ltb -> well_shaped e (res h) ->
  forall k, kept_or_improved (minfun e) (res h)
              (res (for_in js (generation fuel e) h).2) k.
Proof.
  intros Tr W.
  apply (for_in_final
    (fun h0 => well_shaped e (res h0) /\
               forall k, kept_or_improved (minfun e) (res h) (res h0) k)).
  - intros j h0 _ (W0 & K0).
    destruct (generation_kept fuel e j h0 W0) as (W1 & K1).
    split; [exact W1|]. intros k. eapply kept_or_improved_trans; eauto.
  - split; [exact W|]. intros k. now left.
Qed.

Lemma kept_from_start fn (r1 r' : DiffEvolResult T) i (row0 : list T) :
  slot r1 i = (Some row0, Some (fn row0)) ->
  kept_or_improved fn r1 r' i ->
  (population r' !! i = Some row0 /\ fitness r' !! i = Some (fn row0)) \/
  (exists u, population r' !! i = Some u /\ fitness r' !! i = Some (fn u) /\
     fltb (fn u) (fn row0) = true).
Proof.
  intros S1 [K|(u & old & K & Ho & Hlt)].
  - left. rewrite S1 in K. unfold slot in K. now injection K.
  - right. exists u. unfold slot in K, S1.
    injection K as Hp Hf. injection S1 as _ Hf1.
    rewrite Hf1 in Ho. injection Ho as <-. auto.
Qed.

(** X5 (a run never makes a slot worse).  Over numbers whose [<] is
    transitive, from a store of the engine's shape and whichever way the
    call ends: a slot that held the individual [row0] at the start holds at
    the end either [row0] with its objective value, or a trial [u] with its
    objective value, and that value is strictly below that of [row0]. *)
Theorem run_never_regresses (fuel : nat) (e : DiffEvol T) (h : heap)
    (i : nat) (row0 : list T) :
  transitive_ltb ->
  well_shaped e (res h) ->
  population (res h) !! i = Some row0 ->
  (population (res (DiffEvol_call fuel e h).2) !! i = Some row0 /\
   fitness (res (DiffEvol_call fuel e h).2) !! i = Some (minfun e row0)) \/
  (exists u,
     population (res (DiffEvol_call fuel e h).2) !! i = Some u /\
     fitness (res (DiffEvol_call fuel e h).2) !! i = Some (minfun e u) /\
     fltb (minfun e u) (minfun e row0) = true).
Proof.
  intros Tr W Hrow. unfold DiffEvol_call.
  erewrite bind_Ret by (apply evaluate_all_spec; exact W).
  set (h1 := {| np_random := np_random h; res := _; stdout := stdout h |}).
  assert (W1 : well_shaped e (res h1)).
  { destruct W as (Lp & Lf & Fa). unfold well_shaped. simpl.
    rewrite length_fmap. auto. }
  assert (S1 : slot (res h1) i = (Some row0, Some (minfun e row0))).
  { unfold slot. simpl. now rewrite list_lookup_fmap, Hrow. }
  apply (bind_final (fun h0 =>
    (population (res h0) !! i = Some row0 /\
     fitness (res h0) !! i = Some (minfun e row0)) \/
    (exists u, population (res h0) !! i = Some u /\
       fitness (res h0) !! i = Some (minfun e u) /\
       fltb (minfun e u) (minfun e row0) = true))).
  - apply (kept_from_start _ _ _ _ _ S1).
    apply generations_kept; assumption.
  - intros [] h2 E2.
    destruct (best_index_res h2) as (Hp & Hf). rewrite Hp, Hf.
    pose proof (generations_kept fuel e (xrange (n_gen e)) h1 Tr W1 i) as K.
    rewrite E2 in K. simpl in K.
    exact (kept_from_start _ _ _ _ _ S1 K).
Qed.

(** X9 (no generation).  With [n_gen <= 0], which the constructor accepts,
    and at least one individual, the call from a store of the engine's
    shape returns for every iteration budget and both verbosities: the
    population is untouched, each fitness is the objective value of its
    row, the best index is set, and no random number has been drawn. *)
Theorem run_without_generation (fuel : nat) (e : DiffEvol T) (h : heap) :
  well_shaped e (res h) -> (n_gen e <= 0)%Z -> (1 <= n_pop e)%Z ->
  exists k,
    k < Z.to_nat (n_pop e) /\
    DiffEvol_call fuel e h =
      (Ret {| population := population (res h);
              fitness := minfun e <$> population (res h);
              minidx := Some k |},
       {| np_random := np_random h;
          res := {| population := population (res h);
                    fitness := minfun e <$> population (res h);
                    minidx := Some k |};
          stdout := stdout h |}).
Proof.
  intros W Hg Hn. pose proof W as (Lp & _ & _).
  unfold DiffEvol_call.
  erewrite bind_Ret by (apply evaluate_all_spec; exact W).
  unfold xrange at 1. replace (Z.to_nat (n_gen e)) with 0 by lia. simpl.
  unfold best_index, argmin, set_res. prog_unfold. simpl.
  destruct (population (res h)) as [|row rows] eqn:Ep; [simpl in Lp; lia|].
  exists (argmin_from 1 (minfun e <$> rows) 0 (minfun e row)).
  split; [|reflexivity].
  pose proof (argmin_from_lt 1 (minfun e <$> rows) 0 (minfun e row)) as Hk.
  rewrite length_fmap in Hk. simpl in Lp. lia.
Qed.

End WholeRun.

(** ** Runs that end *)

(** A loop whose passes all return once the iteration budget is large enough
    returns once it is. *)
Lemma for_in_eventually {S A} (I : S -> Prop) (body : nat -> A -> prog S unit)
    (xs : list A) s :
  (forall x s0, x ∈ xs -> I s0 ->
     exists f0 s1, (forall f, f0 <= f -> body f x s0 = (Ret tt, s1)) /\ I s1) ->
  I s ->
  exists f0 s', (forall f, f0 <= f -> for_in xs (body f) s = (Ret tt, s')) /\ I s'.
Proof.
  revert s. induction xs as [|x xs IH]; intros s Hb Hs.
  - exists 0, s. split; [reflexivity | exact Hs].
  - destruct (Hb x s (list_elem_of_here _ _) Hs) as (f1 & s1 & E1 & I1).
    destruct (IH s1) as (f2 & s' & E2 & I2); [|exact I1|].
    { intros y s0 Hy. apply Hb. now apply list_elem_of_further. }
    exists (Nat.max f1 f2), s'. split; [|exact I2].
    intros f Hf. simpl. erewrite bind_Ret by (apply E1; lia). apply E2. lia.
Qed.

Section Ending.
Context {T : Type} {AT : Arith T} {RS : RandomState T}.

Lemma recurrent_step m (g : rstate) :
  recurrent m (rk_interval m g).2 -> recurrent m g.
Proof.
  intros Hr k v Hv. destruct (Hr k v Hv) as (j & Hj & E).
  exists (Datatypes.S j). split; [lia | exact E].
Qed.

(** The three loops end on a generator that is recurrent from every state. *)
Lemma select_donors_ends (n : Z) (i : nat) (g : rstate) :
  (4 <= n)%Z -> always_recurrent (Z.to_nat n - 1) ->
  exists fuel t0 t1 t2 g',
    (forall fuel', fuel <= fuel' ->
       select_donors fuel' n i g = (Ret (t0, t1, t2), g')) /\
    t0 < Z.to_nat n /\ t1 < Z.to_nat n /\ t2 < Z.to_nat n.
Proof.
  intros Hn Hr.
  destruct (fresh_index i i i) as (v0 & L0 & N0 & _).
  destruct (redraw_recurrent (fun t => t =? i) n i g v0)
    as (f0 & t0 & g0 & E0 & _); [lia | apply Hr | lia | |].
  { now apply Nat.eqb_neq. }
  destruct (fresh_index i t0 t0) as (v1 & L1 & N1a & N1b & _).
  destruct (redraw_recurrent (fun t => (t =? i) || (t =? t0)) n i g0 v1)
    as (f1 & t1 & g1 & E1 & _); [lia | apply Hr | lia | |].
  { apply orb_false_iff. split; now apply Nat.eqb_neq. }
  destruct (fresh_index i t0 t1) as (v2 & L2 & N2a & N2b & N2c).
  destruct (redraw_recurrent (fun t => (t =? i) || (t =? t0) || (t =? t1))
              n i g1 v2) as (f2 & t2 & g2 & E2 & _); [lia | apply Hr | lia | |].
  { apply orb_false_iff. split; [apply orb_false_iff; split|];
      now apply Nat.eqb_neq. }
  assert (E : forall fuel', Nat.max f0 (Nat.max f1 f2) <= fuel' ->
            select_donors fuel' n i g = (Ret (t0, t1, t2), g2)).
  { intros fuel' Hf. unfold select_donors.
    erewrite bind_Ret by (eapply redraw_more; [exact E0 | lia]).
    erewrite bind_Ret by (eapply redraw_more; [exact E1 | lia]).
    erewrite bind_Ret by (eapply redraw_more; [exact E2 | lia]).
    reflexivity. }
  exists (Nat.max f0 (Nat.max f1 f2)), t0, t1, t2, g2.
  split; [exact E|].
  destruct (select_donors_Ret _ n i g t0 t1 t2 g2 (E _ (le_n _))) as (_ & H).
  exact H.
Qed.

(** The crossover, written out: the draws, the forced index, the trial. *)
Lemma crossover_explicit (e : DiffEvol T) (i : nat) (v x : list T) (h : heap) :
  0 < n_parm e -> length v = n_parm e ->
  population (res h) !! i = Some x ->
  exists rs g1 ri g2 vri,
    random (n_parm e) (np_random h) = (Ret rs, g1) /\
    length rs = n_parm e /\
    randint (Z.of_nat (n_parm e)) g1 = (Ret ri, g2) /\
    ri < n_parm e /\ v !! ri = Some vri /\
    (length x = n_parm e ->
     crossover e i v h =
       (Ret (<[ri:=vri]> (np_where ((fun s => fleb s (C e)) <$> rs) v x)),
        {| np_random := g2; res := res h; stdout := stdout h |})).
Proof.
  intros Hn Hv Hx.
  destruct (random_total (n_parm e) (np_random h)) as (rs & g1 & Ers & Lrs).
  destruct (randint_total (Z.of_nat (n_parm e)) g1) as (ri & g2 & Eri & Hri & _);
    [lia|].
  rewrite Nat2Z.id in Hri.
  destruct (lookup_lt_is_Some_2 v ri) as [vri Hvri]; [lia|].
  exists rs, g1, ri, g2, vri. repeat (split; [assumption|]).
  intros Lx. unfold crossover.
  erewrite bind_Ret by (apply at_rng_run; exact Ers).
  erewrite bind_Ret by (apply get_row_Some; exact Hx).
  erewrite bind_Ret by (apply at_rng_run; exact Eri).
  unfold index. rewrite Hvri. prog_unfold.
  destruct (decide _) as [|Hno]; [reflexivity|].
  exfalso. apply Hno.
  erewrite np_where_length; [exact Hri | now rewrite length_fmap | auto | auto].
Qed.

Lemma selection_returns (e : DiffEvol T) i (u : list T) h :
  well_shaped e (res h) -> i < Z.to_nat (n_pop e) ->
  exists h', selection e i u h = (Ret tt, h').
Proof.
  intros (Lp & Lf & _) Hi. unfold selection.
  destruct (lookup_lt_is_Some_2 (fitness (res h)) i) as [fi Hfi]; [lia|].
  unfold get_fit, index. prog_unfold. rewrite Hfi.
  destruct (fltb (minfun e u) fi); [|eauto].
  unfold set_row, set_fit, set_res, pop, fit. prog_unfold. simpl.
  destruct (decide (i < length (population (res h)))); [|lia]. simpl.
  destruct (decide (i < length (fitness (res h)))); [|lia]. eauto.
Qed.

(** One pass returns once the loops are given enough iterations. *)
Lemma step_ends (e : DiffEvol T) (i : nat) (h : heap) :
  (4 <= n_pop e)%Z -> 0 < n_parm e ->
  always_recurrent (Z.to_nat (n_pop e) - 1) ->
  well_shaped e (res h) -> i < Z.to_nat (n_pop e) ->
  exists f0 h',
    (forall f, f0 <= f -> step f e i h = (Ret tt, h')) /\
    well_shaped e (res h').
Proof.
  intros Hn Hp Hr W Hi. pose proof W as (Lp & Lf & Fa).
  destruct (select_donors_ends (n_pop e) i (np_random h) Hn Hr)
    as (f0 & t0 & t1 & t2 & g' & Esel & H0 & H1 & H2).
  set (h1 := {| np_random := g'; res := res h; stdout := stdout h |}).
  destruct (lookup_lt_is_Some_2 (population (res h)) t0) as [a Ha]; [lia|].
  destruct (lookup_lt_is_Some_2 (population (res h)) t1) as [b Hb]; [lia|].
  destruct (lookup_lt_is_Some_2 (population (res h)) t2) as [c Hc]; [lia|].
  destruct (lookup_lt_is_Some_2 (population (res h)) i) as [x Hx]; [lia|].
  assert (Lv : length (mutant (F e) a b c) = n_parm e)
    by (apply mutant_length; eapply well_shaped_row; eauto).
  destruct (crossover_explicit e i (mutant (F e) a b c) x h1 Hp Lv Hx)
    as (rs & g1 & ri & g2 & vri & _ & _ & _ & _ & _ & Ecross).
  specialize (Ecross (well_shaped_row e (res h) i x W Hx)).
  match type of Ecross with _ = (Ret ?u0, ?h0) => set (u := u0) in *;
    set (h2 := h0) in * end.
  destruct (selection_returns e i u h2 W Hi) as (h3 & Esel3).
  assert (Estep : forall f, f0 <= f -> step f e i h = (Ret tt, h3)).
  { intros f Hf. unfold step.
    erewrite bind_Ret by (apply at_rng_run; apply Esel; exact Hf).
    fold h1. simpl.
    erewrite bind_Ret by (apply get_row_Some; exact Ha).
    erewrite bind_Ret by (apply get_row_Some; exact Hb).
    erewrite bind_Ret by (apply get_row_Some; exact Hc).
    erewrite bind_Ret by exact Ecross. exact Esel3. }
  exists f0, h3. split; [exact Estep|].
  pose proof (step_touches f0 e i h W) as (W3 & _).
  rewrite (Estep f0 (le_n _)) in W3. exact W3.
Qed.

(** X7 (a quiet run ends).  With at least four individuals, at least one
    parameter, [verbose=False] and a generator that is recurrent from every
    state, the call from a store of the engine's shape returns: from some
    iteration budget on, the loops have all ended and the call returns one
    and the same store, with its best index set. *)
Theorem quiet_run_ends (e : DiffEvol T) (h : heap) :
  (4 <= n_pop e)%Z -> 0 < n_parm e -> verbose e = false ->
  always_recurrent (Z.to_nat (n_pop e) - 1) ->
  well_shaped e (res h) ->
  exists fuel r h' k,
    minidx r = Some k /\
    forall fuel', fuel <= fuel' -> DiffEvol_call fuel' e h = (Ret r, h').
Proof.
  intros Hn Hp Hv Hr W.
  pose proof (evaluate_all_spec e h W) as E1.
  set (h1 := {| np_random := np_random h; res := _; stdout := stdout h |}) in E1.
  assert (W1 : well_shaped e (res h1)).
  { destruct W as (Lp & Lf & Fa). unfold well_shaped. simpl.
    rewrite length_fmap. auto. }
  destruct (for_in_eventually (fun h0 => well_shaped e (res h0))
              (fun f j => generation f e j) (xrange (n_gen e)) h1)
    as (f0 & h2 & E2 & W2); [|exact W1|].
  { intros j h0 _ W0.
    destruct (for_in_eventually (fun h0 => well_shaped e (res h0))
                (fun f i => step f e i) (xrange (n_pop e)) h0)
      as (f1 & h3 & E3 & W3); [|exact W0|].
    { intros i h4 Hi W4. apply step_ends; auto.
      unfold xrange in Hi. apply elem_of_seq in Hi. lia. }
    exists f1, h3. split; [|exact W3].
    intros f Hf. unfold generation, sweep.
    erewrite bind_Ret by (apply E3; exact Hf).
    unfold report. now rewrite Hv. }
  destruct W2 as (Lp2 & Lf2 & _).
  destruct (fitness (res h2)) as [|x rest] eqn:Ef; [simpl in Lf2; lia|].
  exists f0. eexists _, _, _. split; [|intros f Hf; unfold DiffEvol_call].
  2:{ erewrite bind_Ret by exact E1.
      erewrite bind_Ret by (apply E2; exact Hf).
      unfold best_index, argmin, set_res. prog_unfold. rewrite Ef.
      reflexivity. }
  reflexivity.
Qed.

(** X8 (where a verbose run stops).  With [verbose=True], [rank] unset and
    at least one generation, the call is the initial evaluation and one
    sweep: if the sweep returns, the call raises [AttributeError] on the
    store that sweep left, the best index as it was; otherwise it ends as
    the sweep does. *)
Theorem verbose_run_stops_after_first_sweep (fuel : nat) (e : DiffEvol T)
    (h : heap) :
  verbose e = true -> rank e = None -> (1 <= n_gen e)%Z ->
  well_shaped e (res h) ->
  DiffEvol_call fuel e h =
    match sweep fuel e
            {| np_random := np_random h;
               res := {| population := population (res h);
                         fitness := minfun e <$> population (res h);
                         minidx := minidx (res h) |};
               stdout := stdout h |} with
    | (Ret _, h2) => (Raise AttributeError, h2)
    | (Raise x, h2) => (Raise x, h2)
    | (Timeout, h2) => (Timeout, h2)
    end.
Proof.
  intros Hv Hk Hg W. unfold DiffEvol_call.
  erewrite bind_Ret by (apply evaluate_all_spec; exact W).
  rewrite xrange_cons by exact Hg. simpl. unfold generation.
  prog_unfold.
  destruct (sweep fuel e _) as [[[]|x|] h2]; try reflexivity.
  unfold report. rewrite Hv, Hk. reflexivity.
Qed.

(** X6 (no individual).  Construction with [n_pop = 0] succeeds; the call
    then raises [ValueError] at [np.argmin] of the empty fitness vector,
    for every iteration budget, when it is quiet or has no generation to
    run.  The store is left as constructed. *)
Theorem empty_population_raises (fn : list T -> T) (bnds : list (T * T))
    (ngen : Z) (f c : T) (sd : Z) (verb : bool) (g : rstate) :
  (0 <= sd < 2 ^ 32)%Z -> verb = false \/ (ngen <= 0)%Z ->
  exists e g',
    DiffEvol_init fn bnds 0 ngen f c sd verb g = (Ret e, g') /\
    forall fuel,
      DiffEvol_call fuel e (enter e g') = (Raise ValueError, enter e g').
Proof.
  intros Hs Hq.
  destruct (DiffEvol_init_Ret fn bnds 0 ngen f c sd verb g) as
    (u & g' & Eu & Lu & Fu & E); [lia | exact Hs |].
  destruct u; [|discriminate Lu].
  exists (built fn bnds 0 ngen f c sd verb []), g'. split; [exact E|].
  intros fuel. set (e := built fn bnds 0 ngen f c sd verb []).
  assert (Eg : forall js h0,
            (js = [] \/ verb = false) ->
            for_in js (generation fuel e) h0 = (Ret tt, h0)).
  { intros js h0 [->|Hv]; [reflexivity|].
    assert (Eone : forall j, generation fuel e j h0 = (Ret tt, h0)).
    { intros j. unfold generation, sweep, report. simpl. now rewrite Hv. }
    induction js as [|j js IH]; [reflexivity|]. simpl.
    erewrite bind_Ret by apply Eone. exact IH. }
  unfold DiffEvol_call.
  erewrite (bind_Ret (for_in (xrange (n_pop e)) (evaluate e)))
    by reflexivity.
  erewrite bind_Ret.
  2:{ apply Eg. destruct Hq as [Hv|Hg]; [now right|left].
      unfold xrange. simpl n_gen. now replace (Z.to_nat ngen) with 0 by lia. }
  reflexivity.
Qed.

End Ending.

(** ** The crossover at the ends of [C] *)

Section CrossoverEnds.
Context {T : Type} {AT : Arith T} {RS : RandomState T}.

Lemma np_where_constant (b : bool) (mask : list bool) (v x : list T) :
  length v = length mask -> length x = length mask ->
  Forall (fun b' => b' = b) mask ->
  np_where mask v x = if b then v else x.
Proof.
  intros Lv Lx Hall. apply list_eq. intros k.
  destruct (mask !! k) as [b'|] eqn:Hk.
  - rewrite (np_where_lookup mask v x k b' Lv Lx Hk).
    rewrite Forall_lookup in Hall. rewrite (Hall k b' Hk). now destruct b.
  - apply lookup_ge_None in Hk.
    rewrite lookup_ge_None_2
      by (erewrite np_where_length; [exact Hk | reflexivity | auto | auto]).
    symmetry. destruct b; apply lookup_ge_None_2; lia.
Qed.

Lemma mask_constant (b : bool) (c : T) n g (rs : list T) g1 :
  (forall g0 : rstate, fleb (random_sample g0).1 c = b) ->
  random n g = (Ret rs, g1) ->
  Forall (fun b' => b' = b) ((fun s => fleb s c) <$> rs).
Proof.
  intros Hc E. apply Forall_fmap.
  exact (random_Forall (fun s => fleb s c = b) n g rs g1 Hc E).
Qed.

(** X10 (crossover with [C] above every draw).  When every draw of
    [random()] is [<= C], as with [C >= 1], the trial is the mutant itself:
    the crossover of a mutant [v] against a row of the store returns [v] and
    leaves the store as it is. *)
Theorem crossover_takes_whole_mutant (e : DiffEvol T) (i : nat)
    (v x : list T) (h : heap) :
  0 < n_parm e -> length v = n_parm e ->
  population (res h) !! i = Some x -> length x = n_parm e ->
  (forall g : rstate, fleb (random_sample g).1 (C e) = true) ->
  exists h', crossover e i v h = (Ret v, h') /\ res h' = res h.
Proof.
  intros Hn Lv Hx Lx Hc.
  destruct (crossover_explicit e i v x h Hn Lv Hx)
    as (rs & g1 & ri & g2 & vri & Ers & Lrs & _ & _ & Hvri & E).
  specialize (E Lx).
  rewrite (np_where_constant true) in E;
    [|rewrite length_fmap; lia | rewrite length_fmap; lia
     |eapply mask_constant; eauto].
  rewrite list_insert_id in E by exact Hvri.
  eexists. split; [exact E | reflexivity].
Qed.

(** X11 (crossover with [C] below every draw).  When no draw of [random()]
    is [<= C], as with [C < 0], the trial is the target row with the one
    forced component taken from the mutant. *)
Theorem crossover_only_forced_component (e : DiffEvol T) (i : nat)
    (v x : list T) (h : heap) :
  0 < n_parm e -> length v = n_parm e ->
  population (res h) !! i = Some x -> length x = n_parm e ->
  (forall g : rstate, fleb (random_sample g).1 (C e) = false) ->
  exists ri vri h',
    ri < n_parm e /\ v !! ri = Some vri /\
    crossover e i v h = (Ret (<[ri:=vri]> x), h') /\ res h' = res h.
Proof.
  intros Hn Lv Hx Lx Hc.
  destruct (crossover_explicit e i v x h Hn Lv Hx)
    as (rs & g1 & ri & g2 & vri & Ers & Lrs & _ & Hri & Hvri & E).
  specialize (E Lx).
  rewrite (np_where_constant false) in E;
    [|rewrite length_fmap; lia | rewrite length_fmap; lia
     |eapply mask_constant; eauto].
  exists ri, vri. eexists. repeat (split; [eassumption|]). reflexivity.
Qed.

End CrossoverEnds.

(** ** The tape generator and the rationals meet the hypotheses *)

Lemma tape_always_recurrent {T} (of_raw : N -> T) (table : Z -> list N) m :
  always_recurrent (RS := tape_rng of_raw table) m.
Proof.
  intros [scr c]. revert c. induction scr as [|w scr IH]; intros c.
  - apply counter_tape_recurrent.
  - apply (recurrent_step (RS := tape_rng of_raw table)). apply IH.
Qed.


Lemma Q_ltb_lt (x y : Q) : fltb x y = true <-> (x < y)%Q.
Proof.
  simpl. rewrite negb_true_iff. split.
  - intros H. apply Qnot_le_lt. intros Hle. apply Qle_bool_iff in Hle.
    congruence.
  - intros H. apply not_true_is_false. intros Hle. apply Qle_bool_iff in Hle.
    now apply Qlt_not_le in H.
Qed.

Lemma Q_transitive_ltb : transitive_ltb (T := Q).
Proof.
  intros x y z Hxy Hyz. apply Q_ltb_lt. apply Q_ltb_lt in Hxy, Hyz.
  eapply Qlt_trans; eauto.
Qed.

Lemma Q_tape_samples_le_1 table (g : tape) :
  fleb (random_sample (RandomState := Q_tape table) g).1 1%Q = true.
Proof.
  destruct (Q_tape_unit_samples table g) as [_ H].
  apply Qle_bool_iff. now apply Qlt_le_weak.
Qed.

Lemma Q_tape_samples_above_minus_1 table (g : tape) :
  fleb (random_sample (RandomState := Q_tape table) g).1 (-1)%Q = false.
Proof.
  destruct (Q_tape_unit_samples table g) as [H _].
  apply not_true_is_false. intros Hle. apply Qle_bool_iff in Hle.
  assert ((-1 < 0)%Q) by reflexivity.
  eapply Qlt_not_le; [eassumption|]. eapply Qle_trans; eassumption.
Qed.

(** ** The further properties on concrete runs *)

Lemma demo_run :
  DiffEvol_call 20 demo_engine demo_heap = (Ret demo_result, demo_heap_after).
Proof. reflexivity. Qed.


Lemma demo_engine_Q_well_shaped ngen c :
  well_shaped (demo_engine_Q_with ngen c) (res demo_heap_Q).
Proof.
  unfold well_shaped. simpl. split; [reflexivity|]. split; [reflexivity|].
  repeat constructor.
Qed.

Lemma demo_engine_verbose_well_shaped :
  well_shaped demo_engine_verbose (res demo_heap).
Proof.
  unfold well_shaped. simpl. split; [reflexivity|]. split; [reflexivity|].
  repeat constructor.
Qed.

Lemma demo_engine_idle_well_shaped :
  well_shaped demo_engine_idle (res demo_heap).
Proof.
  unfold well_shaped. simpl. split; [reflexivity|]. split; [reflexivity|].
  repeat constructor.
Qed.

Lemma fitness_never_stale_witness :
  well_shaped demo_engine (res demo_heap) /\
  population (res (DiffEvol_call 20 demo_engine demo_heap).2) !! 1 =
    Some [0.625%float] /\
  fitness (res (DiffEvol_call 20 demo_engine demo_heap).2) !! 1 =
    Some (minfun demo_engine [0.625%float]).
Proof.
  assert (H : population (res (DiffEvol_call 20 demo_engine demo_heap).2) !! 1 =
              Some [0.625%float]) by (now rewrite demo_run).
  split; [exact demo_engine_well_shaped|]. split; [exact H|].
  refine (fitness_never_stale 20 demo_engine demo_heap 1 [0.625%float] _ H).
  exact demo_engine_well_shaped.
Defined.

Lemma queries_after_run_witness :
  exists k row,
    minidx demo_result = Some k /\ k < Z.to_nat (n_pop demo_engine) /\
    length row = n_parm demo_engine /\
    get_best_fit demo_result = Ret (Array1 row) /\
    get_fitness demo_result = Ret (Scalar (minfun demo_engine row)).
Proof.
  refine (queries_after_run 20 demo_engine demo_heap demo_result
            demo_heap_after _ _).
  - exact demo_engine_well_shaped.
  - exact demo_run.
Defined.


Lemma call_keeps_shape_witness :
  length (population (res (DiffEvol_call 20 demo_engine demo_heap).2)) =
    Z.to_nat (n_pop demo_engine) /\
  length (fitness (res (DiffEvol_call 20 demo_engine demo_heap).2)) =
    Z.to_nat (n_pop demo_engine) /\
  Forall (fun row => length row = n_parm demo_engine)
    (population (res (DiffEvol_call 20 demo_engine demo_heap).2)).
Proof.
  refine (call_keeps_shape 20 demo_engine demo_heap _).
  exact demo_engine_well_shaped.
Defined.

Lemma run_never_regresses_witness :
  (population
     (res (DiffEvol_call (RS := demo_rng_Q) 20 (demo_engine_Q_with 1 (1 # 2))
             demo_heap_Q).2) !! 1 = Some [(-5 # 2)%Q] /\
   fitness
     (res (DiffEvol_call (RS := demo_rng_Q) 20 (demo_engine_Q_with 1 (1 # 2))
             demo_heap_Q).2) !! 1 =
     Some (minfun (demo_engine_Q_with 1 (1 # 2)) [(-5 # 2)%Q])) \/
  (exists u,
     population
       (res (DiffEvol_call (RS := demo_rng_Q) 20 (demo_engine_Q_with 1 (1 # 2))
               demo_heap_Q).2) !! 1 = Some u /\
     fitness
       (res (DiffEvol_call (RS := demo_rng_Q) 20 (demo_engine_Q_with 1 (1 # 2))
               demo_heap_Q).2) !! 1 =
       Some (minfun (demo_engine_Q_with 1 (1 # 2)) u) /\
     fltb (minfun (demo_engine_Q_with 1 (1 # 2)) u)
          (minfun (demo_engine_Q_with 1 (1 # 2)) [(-5 # 2)%Q]) = true).
Proof.
  refine (run_never_regresses (RS := demo_rng_Q) 20
            (demo_engine_Q_with 1 (1 # 2)) demo_heap_Q 1 [(-5 # 2)%Q] _ _ _).
  - exact Q_transitive_ltb.
  - apply demo_engine_Q_well_shaped.
  - reflexivity.
Defined.

Lemma empty_population_raises_witness :
  exists e g',
    DiffEvol_init sum_squares [((-5)%float, 5%float)] 0 1 0.5%float 0.5%float
      0 false fresh_tape = (Ret e, g') /\
    forall fuel,
      DiffEvol_call fuel e (enter e g') = (Raise ValueError, enter e g').
Proof.
  refine (empty_population_raises (RS := demo_rng) sum_squares
            [((-5)%float, 5%float)] 1 0.5%float 0.5%float 0 false fresh_tape
            _ _).
  - lia.
  - left. reflexivity.
Defined.

Lemma quiet_run_ends_witness :
  exists fuel r h' k,
    minidx r = Some k /\
    forall fuel', fuel <= fuel' ->
      DiffEvol_call fuel' demo_engine demo_heap = (Ret r, h').
Proof.
  refine (quiet_run_ends demo_engine demo_heap _ _ _ _ _).
  - simpl. lia.
  - simpl. lia.
  - reflexivity.
  - apply tape_always_recurrent.
  - exact demo_engine_well_shaped.
Defined.

Lemma verbose_run_stops_after_first_sweep_witness :
  DiffEvol_call 20 demo_engine_verbose demo_heap =
    match sweep 20 demo_engine_verbose
            {| np_random := np_random demo_heap;
               res := {| population := population (res demo_heap);
                         fitness := minfun demo_engine_verbose <$>
                                      population (res demo_heap);
                         minidx := minidx (res demo_heap) |};
               stdout := stdout demo_heap |} with
    | (Ret _, h2) => (Raise AttributeError, h2)
    | (Raise x, h2) => (Raise x, h2)
    | (Timeout, h2) => (Timeout, h2)
    end.
Proof.
  refine (verbose_run_stops_after_first_sweep 20 demo_engine_verbose
            demo_heap _ _ _ _).
  - reflexivity.
  - reflexivity.
  - simpl. lia.
  - exact demo_engine_verbose_well_shaped.
Defined.

Lemma run_without_generation_witness :
  exists k,
    k < Z.to_nat (n_pop demo_engine_idle) /\
    DiffEvol_call 0 demo_engine_idle demo_heap =
      (Ret {| population := population (res demo_heap);
              fitness := minfun demo_engine_idle <$> population (res demo_heap);
              minidx := Some k |},
       {| np_random := np_random demo_heap;
          res := {| population := population (res demo_heap);
                    fitness := minfun demo_engine_idle <$>
                                 population (res demo_heap);
                    minidx := Some k |};
          stdout := stdout demo_heap |}).
Proof.
  refine (run_without_generation 0 demo_engine_idle demo_heap _ _ _).
  - exact demo_engine_idle_well_shaped.
  - simpl. lia.
  - simpl. lia.
Defined.

Lemma crossover_takes_whole_mutant_witness :
  exists h',
    crossover (RS := demo_rng_Q) (demo_engine_Q_with 1 1) 1 [(1 # 8)%Q]
      demo_heap_Q = (Ret [(1 # 8)%Q], h') /\
    res h' = res demo_heap_Q.
Proof.
  refine (crossover_takes_whole_mutant (RS := demo_rng_Q)
            (demo_engine_Q_with 1 1) 1 [(1 # 8)%Q] [(-5 # 2)%Q] demo_heap_Q
            _ _ _ _ _).
  - simpl. lia.
  - reflexivity.
  - reflexivity.
  - reflexivity.
  - intros g. apply Q_tape_samples_le_1.
Defined.

Lemma crossover_only_forced_component_witness :
  exists ri vri h',
    ri < n_parm (demo_engine_Q_with 1 (-1)) /\
    [(1 # 8)%Q] !! ri = Some vri /\
    crossover (RS := demo_rng_Q) (demo_engine_Q_with 1 (-1)) 1 [(1 # 8)%Q]
      demo_heap_Q = (Ret (<[ri:=vri]> [(-5 # 2)%Q]), h') /\
    res h' = res demo_heap_Q.
Proof.
  refine (crossover_only_forced_component (RS := demo_rng_Q)
            (demo_engine_Q_with 1 (-1)) 1 [(1 # 8)%Q] [(-5 # 2)%Q] demo_heap_Q
            _ _ _ _ _).
  - simpl. lia.
  - reflexivity.
  - reflexivity.
  - reflexivity.
  - intros g. apply Q_tape_samples_above_minus_1.
Defined.
